(** * Duotone pixel mapper of [src/App.tsx] ([applyDuotoneFilter])

    The pixel loop of [applyDuotoneFilter] (lines 91-115) rewrites the R, G and
    B bytes of an RGBA buffer ([ImageData.data], a [Uint8ClampedArray]) with a
    colour between [darkColor] and [lightColor], chosen by the gamma-corrected
    luminance of the pixel.

    Modelling choices.
    - The byte buffer is a [list Z]; reading [data[i]] is stdpp's list lookup
      and the store [data[i] = v] is stdpp's list insert, which like a typed
      array ignores an index that is out of range.
    - A JavaScript number is a [number]: [NaN] or a finite value.  Finite
      values are taken as real numbers, so the arithmetic of the loop body is
      exact: the rounding of IEEE-754 doubles is not part of the model.  The
      only place where the code rounds by itself is the store into the
      [Uint8ClampedArray], which is [ToUint8Clamp] of ECMAScript.
    - [Math.pow] is the real power function on a positive base. *)

From Stdlib Require Import ZArith Reals Lra Lia List.
From stdpp Require Import base list strings.

Local Open Scope Z_scope.

(** ** JavaScript numbers *)

Inductive number : Type :=
  | NaN
  | Num (x : R).

Arguments Num x%_R.

Declare Scope num_scope.
Delimit Scope num_scope with num.
Bind Scope num_scope with number.

Definition nadd (a b : number) : number :=
  match a, b with
  | Num x, Num y => Num (x + y)
  | _, _ => NaN
  end.

Definition nsub (a b : number) : number :=
  match a, b with
  | Num x, Num y => Num (x - y)
  | _, _ => NaN
  end.

Definition nmul (a b : number) : number :=
  match a, b with
  | Num x, Num y => Num (x * y)
  | _, _ => NaN
  end.

(** The divisors of the loop body are the non-zero constants [255] and
    [gamma], so the infinities of a division by zero are not needed. *)
Definition ndiv (a b : number) : number :=
  match a, b with
  | Num x, Num y => Num (x / y)
  | _, _ => NaN
  end.

Infix "+" := nadd : num_scope.
Infix "-" := nsub : num_scope.
Infix "*" := nmul : num_scope.
Infix "/" := ndiv : num_scope.

(** An integer read from the buffer, as a number. *)
Definition of_Z (z : Z) : number := Num (IZR z).

(** [Math.pow(base, exponent)] (ECMAScript Number::exponentiate) on finite
    arguments.  The loop calls it with the exponent [1 / gamma], which is
    positive and not an integer: a zero base gives [+0], a negative base gives
    [NaN].  A zero base with a negative exponent is [+Infinity] in JavaScript,
    and a negative base with an integer exponent is finite; neither is
    reachable from the loop, and both are [NaN] here. *)
Definition Math_pow (base exponent : number) : number :=
  match exponent with
  | NaN => NaN
  | Num y =>
      if Req_dec_T y 0 then Num 1
      else match base with
           | NaN => NaN
           | Num x =>
               if Rlt_dec 0 x then Num (Rpower x y)
               else if Req_dec_T x 0 then (if Rlt_dec 0 y then Num 0 else NaN)
               else NaN
           end
  end.

(** [ToUint8Clamp] of ECMAScript, the conversion of a store into a
    [Uint8ClampedArray]: [NaN] is [0]; otherwise clamp to [0, 255], take the
    floor [f], and round to the nearest integer, a tie going to the even one. *)
Definition ToUint8Clamp (v : number) : Z :=
  match v with
  | NaN => 0
  | Num x =>
      let clamped := Rmin (Rmax x 0) 255 in
      let f := Int_part clamped in
      if Rlt_dec clamped (IZR f + 0.5) then f
      else if Rlt_dec (IZR f + 0.5) clamped then f + 1
      else if Z.even f then f else f + 1
  end.

(** ** The image buffer *)

(** [ImageData]: the canvas size and the RGBA bytes, four per pixel. *)
Record ImageData : Type := mkImageData {
  width : nat;
  height : nat;
  data : list Z
}.

(** [data[i]] as the loop reads it: an index past the end is [undefined],
    which arithmetic turns into [NaN]. *)
Definition get (data : list Z) (i : nat) : number :=
  match data !! i with
  | Some v => of_Z v
  | None => NaN
  end.

(** [data[i] = v]: the value is converted with [ToUint8Clamp]; a store past
    the end does nothing. *)
Definition set (data : list Z) (i : nat) (v : number) : list Z :=
  <[ i := ToUint8Clamp v ]> data.

Module Color.
Record t : Type := mk { r : number; g : number; b : number }.
End Color.

(** Colors: Hero Green (dark) and Pink (light). *)
Definition darkColor : Color.t := Color.mk (Num 27) (Num 96) (Num 47).
Definition lightColor : Color.t := Color.mk (Num 247) (Num 132) (Num 197).

(** ** The loop body *)

Definition gamma : number := Num 0.9.

Definition gray_of (r g b : number) : number :=
  (Num 0.299 * r + Num 0.587 * g + Num 0.114 * b)%num.

Definition correctedGray_of (gray : number) : number :=
  (Num 255 * Math_pow (gray / Num 255) (Num 1 / gamma))%num.

Definition normalizedGray_of (gray : number) : number :=
  (correctedGray_of gray / Num 255)%num.

(** One component of the output colour, before the store rounds it. *)
Definition mix (dark light normalizedGray : number) : number :=
  (dark + (light - dark) * normalizedGray)%num.

(** One iteration of the [for] loop, at index [i]. *)
Definition body (data : list Z) (i : nat) : list Z :=
  let r := get data i in
  let g := get data (i + 1) in
  let b := get data (i + 2) in
  let gray := gray_of r g b in
  let normalizedGray := normalizedGray_of gray in
  let data := set data i (mix (Color.r darkColor) (Color.r lightColor) normalizedGray) in
  let data := set data (i + 1) (mix (Color.g darkColor) (Color.g lightColor) normalizedGray) in
  let data := set data (i + 2) (mix (Color.b darkColor) (Color.b lightColor) normalizedGray) in
  data.

(** [for (let i = 0; i < data.length; i += 4) body]: [fuel] bounds the number
    of iterations; [length data] iterations are always enough
    ([loop_fuel_enough] below). *)
Fixpoint loop (fuel : nat) (i : nat) (data : list Z) : list Z :=
  match fuel with
  | O => data
  | S fuel' =>
      if (i <? length data)%nat then loop fuel' (i + 4) (body data i) else data
  end.

(** The pixel pass of [applyDuotoneFilter]: [getImageData], the loop, and the
    same [ImageData] object handed to [putImageData]. *)
Definition applyDuotoneFilter (img : ImageData) : ImageData :=
  {| width := width img;
     height := height img;
     data := loop (length (data img)) 0 (data img) |}.

(** ** Well-formed input *)

(** A channel value of a decoded bitmap. *)
Definition byte (z : Z) : Prop := 0 <= z <= 255.

(** A well-formed bitmap: [width * height] pixels of four bytes each. *)
Definition well_formed (img : ImageData) : Prop :=
  length (data img) = (width img * height img * 4)%nat /\ Forall byte (data img).


(** The value [ToUint8Clamp] rounds: its argument clamped to [0, 255]. *)
Definition clamped_of (x : R) : R := Rmin (Rmax x 0) 255.

(** [Math.pow(x, 1 / gamma)] on a real base [x >= 0], as [Math_pow] gives it. *)
Definition tone (x : R) : R :=
  if Rlt_dec 0 x then Rpower x (1 / 0.9) else 0.

(** ** An integer version of the loop body

    On bytes the loop body can be computed with integers alone.  With
    [G = 299 r + 587 g + 114 b] the base of the power is [G / 255000], and
    [t = (G / 255000) ^ (10 / 9)] satisfies [t ^ 9 = (G / 255000) ^ 10], so
    [(light - dark) * t] is compared with [m + 1/2] by comparing
    [(2 (light - dark)) ^ 9 * G ^ 10] with [(2 m + 1) ^ 9 * 255000 ^ 10].
    [channel_of_bytes] (below) shows that this is the byte the loop stores. *)

Definition luma1000 (r g b : Z) : Z := 299 * r + 587 * g + 114 * b.

(** [(light - dark) * t] against [m + 1/2], with [k = light - dark]. *)
Definition cmp_half (k G m : Z) : comparison :=
  ((2 * k) ^ 9 * G ^ 10 ?= (2 * m + 1) ^ 9 * 255000 ^ 10).

(** The rounding of [dark + k * t], searched upwards from [dark + m]. *)
Fixpoint round_from (n : nat) (dark k G m : Z) : Z :=
  match n with
  | O => dark + m
  | S n' =>
      match cmp_half k G m with
      | Lt => dark + m
      | Eq => if Z.even (dark + m) then dark + m else dark + m + 1
      | Gt => round_from n' dark k G (m + 1)
      end
  end.

Definition channelZ (dark light G : Z) : Z :=
  round_from (Z.to_nat (light - dark)) dark (light - dark) G 0.

Definition pixelZ (r g b : Z) : Z * Z * Z :=
  let G := luma1000 r g b in
  (channelZ 27 247 G, channelZ 96 132 G, channelZ 47 197 G).

(** The byte one iteration stores into channel [c] (0 red, 1 green, 2 blue) of
    a pixel, from the three numbers the iteration read. *)
Definition stored (c : nat) (r g b : number) : Z :=
  let normalizedGray := normalizedGray_of (gray_of r g b) in
  match c with
  | O => ToUint8Clamp (mix (Color.r darkColor) (Color.r lightColor) normalizedGray)
  | S O => ToUint8Clamp (mix (Color.g darkColor) (Color.g lightColor) normalizedGray)
  | _ => ToUint8Clamp (mix (Color.b darkColor) (Color.b lightColor) normalizedGray)
  end.

(** The integer version of the whole loop, pixel by pixel.  A buffer whose
    length is not a multiple of four ends in a partial pixel: with three bytes
    left the colour is computed as usual; with fewer, a read past the end
    makes the gray [NaN] and the bytes that exist are stored as [0]. *)
Fixpoint pixelsZ (data : list Z) : list Z :=
  match data with
  | r :: g :: b :: a :: rest =>
      let '(r', g', b') := pixelZ r g b in
      r' :: g' :: b' :: a :: pixelsZ rest
  | [r; g; b] => let '(r', g', b') := pixelZ r g b in [r'; g'; b']
  | [_; _] => [0; 0]
  | [_] => [0]
  | [] => []
  end.

(** ** Notions of the specification *)

(** Pixel [k] of a buffer: the bytes at [4 k .. 4 k + 3]. *)
Definition pixel_at (data : list Z) (k : nat) : option (Z * Z * Z * Z) :=
  match data !! (4 * k)%nat, data !! (4 * k + 1)%nat,
        data !! (4 * k + 2)%nat, data !! (4 * k + 3)%nat with
  | Some r, Some g, Some b, Some a => Some (r, g, b, a)
  | _, _, _, _ => None
  end.

(** The defensive clamp of the interpolation parameter that the specification
    asks for (section 4.1, step 3).  The loop body has no such step. *)
Definition clamp01 (t : R) : R := Rmin (Rmax t 0) 1.

(** "Rounded to the nearest integer and constrained to [0, 255]"
    (section 4.1, step 4): [n] is a byte within one half of [v]. *)
Definition rounded_of (v : R) (n : Z) : Prop :=
  (Rabs (IZR n - v) <= 1 / 2)%R /\ 0 <= n <= 255.

(** ** Sample bitmaps *)

Definition black1 : ImageData := mkImageData 1 1 [0; 0; 0; 255].
Definition white1 : ImageData := mkImageData 1 1 [255; 255; 255; 255].
Definition midgray1 : ImageData := mkImageData 1 1 [128; 128; 128; 200].
Definition two_by_one : ImageData :=
  mkImageData 2 1 [10; 200; 30; 255; 11; 200; 30; 7].

(** Two pixels of different colours and the same luminance
    ([299 r + 587 g + 114 b = 3876]). *)
Definition same_luma : ImageData :=
  mkImageData 2 1 [0; 0; 34; 255; 11; 1; 0; 9].

(** ** The letterbox fit (lines 78-86)

    Before the loop, [applyDuotoneFilter] computes the rectangle in which
    [drawImage] paints the picture on the canvas: as wide as the canvas, or,
    when that is too high, as high as the canvas; centred.  Sizes are real
    numbers; the sizes of a loaded picture and of the canvas are positive. *)

Module Draw.
Record rect : Type := mk { x : R; y : R; drawWidth : R; drawHeight : R }.
End Draw.

Definition letterbox (imgWidth imgHeight canvasWidth canvasHeight : R)
    : Draw.rect :=
  let aspectRatio := (imgWidth / imgHeight)%R in
  let drawWidth := canvasWidth in
  let drawHeight := (drawWidth / aspectRatio)%R in
  let '(drawWidth, drawHeight) :=
    if Rlt_dec canvasHeight drawHeight
    then ((canvasHeight * aspectRatio)%R, canvasHeight)
    else (drawWidth, drawHeight) in
  Draw.mk ((canvasWidth - drawWidth) / 2)%R ((canvasHeight - drawHeight) / 2)%R
          drawWidth drawHeight.

(** The fit as binary64 computes it: every operation of lines 78-86 is
    followed by a rounding [rnd].  The sizes themselves are integers and are
    not rounded.  [letterbox] is the case where [rnd] changes nothing. *)
Definition letterbox_fl (rnd : R -> R)
    (imgWidth imgHeight canvasWidth canvasHeight : R) : Draw.rect :=
  let aspectRatio := rnd (imgWidth / imgHeight)%R in
  let drawWidth := canvasWidth in
  let drawHeight := rnd (drawWidth / aspectRatio)%R in
  let '(drawWidth, drawHeight) :=
    if Rlt_dec canvasHeight drawHeight
    then (rnd (canvasHeight * aspectRatio)%R, canvasHeight)
    else (drawWidth, drawHeight) in
  Draw.mk (rnd (rnd (canvasWidth - drawWidth) / 2))%R
          (rnd (rnd (canvasHeight - drawHeight) / 2))%R
          drawWidth drawHeight.

(** The standard model of a rounding: a relative error of at most [u].
    Rounding to nearest in binary64 satisfies it with [u = unit_roundoff], as
    long as nothing overflows or underflows. *)
Definition rounds_within (u : R) (rnd : R -> R) : Prop :=
  forall x : R, (Rabs (rnd x - x) <= u * Rabs x)%R.

Definition unit_roundoff : R := (/ 2 ^ 53)%R.

(** ** The state of the [App] component and its handlers (lines 56-175)

    The five [useState] cells are a record; every handler is a function on
    it.  What the browser does between two handlers (reading the file,
    decoding the picture, painting the canvas) is not modelled: its outcome
    is the argument of the handler that it calls. *)

Module App.

Record File : Type := mkFile { type : string }.

Record State : Type := mkState {
  originalImage : option string;
  processedImageURL : option string;
  isLoading : bool;
  error : option string;
  isDragging : bool
}.

(** The initial values of the [useState] calls. *)
Definition initial : State := mkState None None false None false.

Definition setOriginalImage (v : option string) (st : State) : State :=
  mkState v (processedImageURL st) (isLoading st) (error st) (isDragging st).

Definition setProcessedImageURL (v : option string) (st : State) : State :=
  mkState (originalImage st) v (isLoading st) (error st) (isDragging st).

Definition setIsLoading (v : bool) (st : State) : State :=
  mkState (originalImage st) (processedImageURL st) v (error st) (isDragging st).

Definition setError (v : option string) (st : State) : State :=
  mkState (originalImage st) (processedImageURL st) (isLoading st) v
          (isDragging st).

Definition setIsDragging (v : bool) (st : State) : State :=
  mkState (originalImage st) (processedImageURL st) (isLoading st) (error st) v.

(** What [applyDuotoneFilter] finds when the picture has loaded:
    [canvasRef.current] is null, or [getContext('2d')] is null, or the
    picture is painted and [getImageData] returns the canvas bytes. *)
Inductive canvas : Type :=
  | NoCanvas
  | NoContext
  | Painted (imageData : ImageData).

(** JavaScript truthiness of a [string | null]: null and the empty string
    are falsy. *)
Definition truthy (v : option string) : bool :=
  match v with
  | Some s => negb (String.eqb s "")
  | None => false
  end.

Section Handlers.
(** [canvas.toDataURL('image/png')] of a canvas holding the given bytes. *)
Variable toDataURL : ImageData -> string.

(** [handleFileChange]: the new state, and the file given to
    [reader.readAsDataURL], if any.  [files] is [None] for null. *)
Definition handleFileChange (files : option (list File)) (st : State)
    : State * option File :=
  match files with
  | Some (file :: _) =>
      if negb (String.prefix "image/" (type file))
      then (setError (Some "Please upload an image file (e.g., JPG, PNG).") st,
            None)
      else (st, Some file)
  | _ => (st, None)
  end.

(** [reader.onload]: [setOriginalImage(e.target?.result)]. *)
Definition reader_onload (result : option string) (st : State) : State :=
  setOriginalImage result st.

(** The effect on [originalImage] (lines 120-136), up to [img.src = ...]. *)
Definition originalImage_effect (st : State) : State :=
  if negb (truthy (originalImage st)) then st
  else setError None (setProcessedImageURL None (setIsLoading true st)).

(** [img.onload], that is [applyDuotoneFilter(img)] (lines 68-118), as it acts
    on the state. *)
Definition img_onload (c : canvas) (st : State) : State :=
  match c with
  | NoCanvas => st
  | NoContext => setError (Some "Could not get canvas context.") st
  | Painted imageData =>
      setIsLoading false
        (setProcessedImageURL
           (Some (toDataURL (applyDuotoneFilter imageData))) st)
  end.

(** [img.onerror]. *)
Definition img_onerror (st : State) : State :=
  setIsLoading false
    (setError (Some "Failed to load the image. Please try a different file.") st).

Definition handleDragEvents (isEntering : bool) (st : State) : State :=
  setIsDragging isEntering st.

Definition handleDrop (files : option (list File)) (st : State)
    : State * option File :=
  handleFileChange files (setIsDragging false st).

Definition handleReset (st : State) : State :=
  setIsLoading false (setError None (setProcessedImageURL None
    (setOriginalImage None st))).

(** Whatever can happen to the component. *)
Inductive event : Type :=
  | FileChange (files : option (list File))
  | ReaderLoad (result : option string)
  | OriginalImageEffect
  | ImgLoad (c : canvas)
  | ImgError
  | DragEvents (isEntering : bool)
  | Drop (files : option (list File))
  | Reset.

Definition step (st : State) (e : event) : State :=
  match e with
  | FileChange files => fst (handleFileChange files st)
  | ReaderLoad result => reader_onload result st
  | OriginalImageEffect => originalImage_effect st
  | ImgLoad c => img_onload c st
  | ImgError => img_onerror st
  | DragEvents isEntering => handleDragEvents isEntering st
  | Drop files => fst (handleDrop files st)
  | Reset => handleReset st
  end.

(** A sequence of events, from a given state. *)
Definition run (st : State) (events : list event) : State :=
  fold_left step events st.

(** The events whose handlers call [setIsDragging]. *)
Definition sets_dragging (e : event) : bool :=
  match e with
  | DragEvents _ | Drop _ => true
  | _ => false
  end.

End Handlers.

End App.

(** * Properties *)

(** ** Rounding of the store *)

Section Rounding.
Local Open Scope R_scope.

Lemma clamped_of_range (x : R) : 0 <= clamped_of x <= 255.
Proof.
  unfold clamped_of, Rmin, Rmax.
  repeat destruct (Rle_dec _ _); lra.
Qed.

Lemma clamped_of_id (x : R) : 0 <= x <= 255 -> clamped_of x = x.
Proof.
  intros Hx. unfold clamped_of, Rmin, Rmax.
  repeat destruct (Rle_dec _ _); lra.
Qed.

Lemma clamped_of_mono (x y : R) : x <= y -> clamped_of x <= clamped_of y.
Proof.
  intros Hxy. unfold clamped_of, Rmin, Rmax.
  repeat destruct (Rle_dec _ _); lra.
Qed.

(** The stored byte is within one half of the clamped value. *)
Lemma ToUint8Clamp_nearest (x : R) :
  IZR (ToUint8Clamp (Num x)) - 1 / 2 <= clamped_of x
  <= IZR (ToUint8Clamp (Num x)) + 1 / 2.
Proof.
  unfold ToUint8Clamp. fold (clamped_of x).
  destruct (base_Int_part (clamped_of x)) as [Hlo Hhi].
  set (f := Int_part (clamped_of x)) in *.
  destruct (Rlt_dec (clamped_of x) (IZR f + 0.5)) as [H1 | H1].
  - lra.
  - destruct (Rlt_dec (IZR f + 0.5) (clamped_of x)) as [H2 | H2].
    + rewrite plus_IZR. lra.
    + destruct (Z.even f); [| rewrite plus_IZR]; lra.
Qed.

Lemma ToUint8Clamp_range (v : number) : (0 <= ToUint8Clamp v <= 255)%Z.
Proof.
  destruct v as [| x]; [simpl; lia |].
  pose proof (ToUint8Clamp_nearest x) as Hn.
  pose proof (clamped_of_range x) as Hc.
  set (z := ToUint8Clamp (Num x)) in *.
  split.
  - apply Z.lt_pred_le, lt_IZR. change (Z.pred 0) with (-1)%Z. lra.
  - apply Z.lt_succ_r, lt_IZR. change (Z.succ 255) with 256%Z. lra.
Qed.

(** A value strictly within one half of a byte [n] is stored as [n]. *)
Lemma ToUint8Clamp_near (n : Z) (x : R) :
  (0 <= n <= 255)%Z ->
  IZR n - 1 / 2 < x < IZR n + 1 / 2 ->
  ToUint8Clamp (Num x) = n.
Proof.
  intros [Hn0 Hn1] [Hlo Hhi].
  apply IZR_le in Hn0, Hn1.
  pose proof (ToUint8Clamp_nearest x) as Hnear.
  assert (Hc : IZR n - 1 / 2 < clamped_of x < IZR n + 1 / 2).
  { unfold clamped_of, Rmin, Rmax. repeat destruct (Rle_dec _ _); lra. }
  set (z := ToUint8Clamp (Num x)) in *.
  apply Z.le_antisymm.
  - apply Z.lt_succ_r, lt_IZR. rewrite succ_IZR. lra.
  - apply Z.lt_pred_le, lt_IZR. unfold Z.pred. rewrite plus_IZR. lra.
Qed.

Lemma ToUint8Clamp_IZR (n : Z) :
  (0 <= n <= 255)%Z -> ToUint8Clamp (Num (IZR n)) = n.
Proof.
  intros Hn. apply ToUint8Clamp_near; [exact Hn | lra].
Qed.

(** The store is monotone in the value stored. *)
Lemma ToUint8Clamp_mono (x y : R) :
  x <= y -> (ToUint8Clamp (Num x) <= ToUint8Clamp (Num y))%Z.
Proof.
  intros Hxy.
  pose proof (clamped_of_mono x y Hxy) as Hc.
  destruct (Req_dec (clamped_of x) (clamped_of y)) as [Heq | Hne].
  - unfold ToUint8Clamp. fold (clamped_of x) (clamped_of y).
    rewrite Heq. lia.
  - pose proof (ToUint8Clamp_nearest x) as Hx.
    pose proof (ToUint8Clamp_nearest y) as Hy.
    apply Z.lt_succ_r, lt_IZR. rewrite succ_IZR. lra.
Qed.

End Rounding.

(** ** The power [x ^ (1 / gamma)] *)

Section Tone.
Local Open Scope R_scope.

Lemma pow_lt_strict (x y : R) (n : nat) : 0 <= x < y -> x ^ S n < y ^ S n.
Proof.
  intros [Hx Hxy]. induction n as [| n IH].
  - simpl. lra.
  - change (x ^ S (S n)) with (x * x ^ S n).
    change (y ^ S (S n)) with (y * y ^ S n).
    assert (0 <= x ^ S n) by (apply pow_le; exact Hx).
    apply Rmult_le_0_lt_compat; assumption.
Qed.

Lemma pow_lt_cancel (x y : R) (n : nat) : 0 <= y -> x ^ n < y ^ n -> x < y.
Proof.
  intros Hy Hlt. destruct (Rlt_le_dec x y) as [H | H]; [exact H |].
  pose proof (pow_incr y x n (conj Hy H)). lra.
Qed.

Lemma pow_eq_cancel (x y : R) (n : nat) :
  0 <= x -> 0 <= y -> x ^ S n = y ^ S n -> x = y.
Proof.
  intros Hx Hy Heq.
  destruct (Rtotal_order x y) as [H | [H | H]]; [| exact H |].
  - pose proof (pow_lt_strict x y n (conj Hx H)). lra.
  - pose proof (pow_lt_strict y x n (conj Hy H)). lra.
Qed.

Lemma tone_0 : tone 0 = 0.
Proof. unfold tone. destruct (Rlt_dec 0 0); [lra | reflexivity]. Qed.

Lemma tone_1 : tone 1 = 1.
Proof.
  unfold tone. destruct (Rlt_dec 0 1); [| lra].
  unfold Rpower. rewrite ln_1, Rmult_0_r. apply exp_0.
Qed.

Lemma tone_nonneg (x : R) : 0 <= tone x.
Proof.
  unfold tone. destruct (Rlt_dec 0 x); [| lra].
  unfold Rpower. left. apply exp_pos.
Qed.

Lemma tone_mono (x y : R) : 0 <= x <= y -> tone x <= tone y.
Proof.
  intros [Hx Hxy]. unfold tone.
  destruct (Rlt_dec 0 x) as [Hx0 | Hx0]; destruct (Rlt_dec 0 y) as [Hy0 | Hy0];
    try lra.
  - apply Rle_Rpower_l; lra.
  - unfold Rpower. left. apply exp_pos.
Qed.

Lemma tone_le_1 (x : R) : 0 <= x <= 1 -> tone x <= 1.
Proof.
  intros Hx. rewrite <- tone_1. apply tone_mono. exact Hx.
Qed.

(** The ninth power of [x ^ (10/9)] is the tenth power of [x]. *)
Lemma tone_pow9 (x : R) : 0 <= x -> tone x ^ 9 = x ^ 10.
Proof.
  intros Hx. unfold tone. destruct (Rlt_dec 0 x) as [Hx0 | Hx0].
  - rewrite <- (Rpower_pow 9) by (unfold Rpower; apply exp_pos).
    rewrite Rpower_mult.
    replace (1 / 0.9 * INR 9) with (INR 10) by (simpl; lra).
    apply Rpower_pow. exact Hx0.
  - replace x with 0 by lra. simpl. lra.
Qed.

End Tone.

(** ** The loop body on numbers *)

Section Body.
Local Open Scope R_scope.

Lemma Math_pow_tone (x : R) :
  0 <= x -> Math_pow (Num x) (Num 1 / gamma)%num = Num (tone x).
Proof.
  intros Hx. unfold Math_pow, gamma, ndiv, tone.
  destruct (Req_dec_T (1 / 0.9) 0) as [H | _]; [lra |].
  destruct (Rlt_dec 0 x) as [H0 | H0]; [reflexivity |].
  destruct (Req_dec_T x 0) as [_ | H1]; [| lra].
  destruct (Rlt_dec 0 (1 / 0.9)) as [_ | H2]; [reflexivity | lra].
Qed.

Lemma normalizedGray_Num (G : R) :
  0 <= G -> normalizedGray_of (Num G) = Num (tone (G / 255)).
Proof.
  intros HG. unfold normalizedGray_of, correctedGray_of.
  change (Num G / Num 255)%num with (Num (G / 255)).
  rewrite Math_pow_tone by lra.
  simpl. f_equal. field.
Qed.

Lemma gray_of_bytes (r g b : Z) :
  gray_of (of_Z r) (of_Z g) (of_Z b) = Num (IZR (luma1000 r g b) / 1000).
Proof.
  unfold gray_of, of_Z, luma1000. simpl. f_equal.
  rewrite !plus_IZR, !mult_IZR. lra.
Qed.

Lemma luma1000_range (r g b : Z) :
  byte r -> byte g -> byte b -> (0 <= luma1000 r g b <= 255000)%Z.
Proof. unfold byte, luma1000. lia. Qed.

(** The interpolation parameter of a pixel of bytes. *)
Lemma normalizedGray_bytes (r g b : Z) :
  byte r -> byte g -> byte b ->
  normalizedGray_of (gray_of (of_Z r) (of_Z g) (of_Z b))
  = Num (tone (IZR (luma1000 r g b) / 255000)).
Proof.
  intros Hr Hg Hb. rewrite gray_of_bytes.
  pose proof (luma1000_range r g b Hr Hg Hb) as [HG _].
  apply IZR_le in HG.
  rewrite normalizedGray_Num by lra.
  do 2 f_equal. field.
Qed.

Lemma mix_Num (d l t : R) : mix (Num d) (Num l) (Num t) = Num (d + (l - d) * t).
Proof. reflexivity. Qed.

End Body.

(** ** The integer loop body computes the stored bytes *)

Section IntegerBody.
Local Open Scope R_scope.

Lemma ToUint8Clamp_tie (f : Z) :
  (0 <= f < 255)%Z ->
  ToUint8Clamp (Num (IZR f + 1 / 2)) = if Z.even f then f else (f + 1)%Z.
Proof.
  intros [Hf0 Hf1].
  apply IZR_le in Hf0. apply IZR_lt in Hf1.
  assert (Hle : IZR f + 1 <= 255).
  { rewrite <- plus_IZR. apply IZR_le. apply lt_IZR in Hf1. lia. }
  unfold ToUint8Clamp. fold (clamped_of (IZR f + 1 / 2)).
  rewrite clamped_of_id by lra.
  replace (Int_part (IZR f + 1 / 2)) with f
    by (apply Int_part_spec; lra).
  destruct (Rlt_dec (IZR f + 1 / 2) (IZR f + 0.5)) as [H | _]; [lra |].
  destruct (Rlt_dec (IZR f + 0.5) (IZR f + 1 / 2)) as [H | _]; [lra |].
  reflexivity.
Qed.

(** [cmp_half] decides on which side of [m + 1/2] the product [k * t] is. *)
Lemma cmp_half_spec (k G m : Z) :
  (0 <= k)%Z -> (0 <= G)%Z -> (0 <= m)%Z ->
  let v := IZR k * tone (IZR G / 255000) in
  match cmp_half k G m with
  | Lt => v < IZR m + 1 / 2
  | Eq => v = IZR m + 1 / 2
  | Gt => IZR m + 1 / 2 < v
  end.
Proof.
  intros Hk HG Hm v.
  apply IZR_le in Hk, HG, Hm.
  assert (Ht : 0 <= tone (IZR G / 255000)) by apply tone_nonneg.
  assert (Hv : 0 <= 2 * v) by (unfold v; nra).
  assert (Hc : 0 <= 2 * IZR m + 1) by lra.
  assert (HD : 0 < 255000 ^ 10) by (apply pow_lt; lra).
  assert (HA : IZR ((2 * k) ^ 9 * G ^ 10) = (2 * v) ^ 9 * 255000 ^ 10).
  { unfold v.
    replace (2 * (IZR k * tone (IZR G / 255000)))
      with ((2 * IZR k) * tone (IZR G / 255000)) by ring.
    rewrite (Rpow_mult_distr (2 * IZR k)).
    rewrite tone_pow9 by (apply Rmult_le_pos; lra).
    rewrite mult_IZR.
    change 9%Z with (Z.of_nat 9). change 10%Z with (Z.of_nat 10).
    rewrite <- !pow_IZR, mult_IZR.
    field. }
  assert (HB : IZR ((2 * m + 1) ^ 9 * 255000 ^ 10)
               = (2 * IZR m + 1) ^ 9 * 255000 ^ 10).
  { rewrite mult_IZR.
    change 9%Z with (Z.of_nat 9). change 10%Z with (Z.of_nat 10).
    rewrite <- !pow_IZR, plus_IZR, mult_IZR. reflexivity. }
  unfold cmp_half.
  destruct (Z.compare_spec ((2 * k) ^ 9 * G ^ 10) ((2 * m + 1) ^ 9 * 255000 ^ 10))
    as [Heq | Hlt | Hgt].
  - apply (f_equal IZR) in Heq. rewrite HA, HB in Heq.
    apply Rmult_eq_reg_r in Heq; [| lra].
    apply pow_eq_cancel in Heq; lra.
  - apply IZR_lt in Hlt. rewrite HA, HB in Hlt.
    apply Rmult_lt_reg_r in Hlt; [| lra].
    apply pow_lt_cancel in Hlt; lra.
  - apply IZR_lt in Hgt. rewrite HA, HB in Hgt.
    apply Rmult_lt_reg_r in Hgt; [| lra].
    apply pow_lt_cancel in Hgt; lra.
Qed.

Lemma round_from_correct (n : nat) (dark k G m : Z) :
  (0 <= dark)%Z -> (dark + k <= 255)%Z -> (0 <= G <= 255000)%Z ->
  (0 <= m)%Z -> (m + Z.of_nat n = k)%Z ->
  IZR m - 1 / 2 < IZR k * tone (IZR G / 255000) ->
  ToUint8Clamp (Num (IZR dark + IZR k * tone (IZR G / 255000)))
  = round_from n dark k G m.
Proof.
  revert m. induction n as [| n IH]; intros m Hd Hdk HG Hm Hmn Hlo.
  - cbn [round_from]. replace k with m in * by (simpl in Hmn; lia).
    assert (Ht : tone (IZR G / 255000) <= 1).
    { apply tone_le_1. destruct HG as [HG0 HG1].
      apply IZR_le in HG0, HG1. split.
      - apply Rmult_le_pos; lra.
      - lra. }
    assert (Hm' := IZR_le _ _ Hm).
    apply ToUint8Clamp_near; [lia |].
    rewrite plus_IZR. nra.
  - cbn [round_from].
    pose proof (cmp_half_spec k G m ltac:(lia) ltac:(lia) Hm) as Hcmp.
    cbv zeta in Hcmp.
    destruct (cmp_half k G m).
    + rewrite Hcmp.
      replace (IZR dark + (IZR m + 1 / 2)) with (IZR (dark + m) + 1 / 2)
        by (rewrite plus_IZR; ring).
      rewrite ToUint8Clamp_tie by lia.
      destruct (Z.even (dark + m)); reflexivity.
    + apply ToUint8Clamp_near; [lia |].
      rewrite plus_IZR. lra.
    + apply IH; try lia.
      rewrite plus_IZR. lra.
Qed.

(** The byte stored for a channel with endpoints [dark < light] is the one
    the integer search finds. *)
Lemma channelZ_correct (dark light G : Z) :
  (0 <= dark)%Z -> (dark < light)%Z -> (light <= 255)%Z ->
  (0 <= G <= 255000)%Z ->
  ToUint8Clamp
    (mix (Num (IZR dark)) (Num (IZR light)) (Num (tone (IZR G / 255000))))
  = channelZ dark light G.
Proof.
  intros Hd Hdl Hl HG. rewrite mix_Num. unfold channelZ.
  rewrite <- minus_IZR.
  apply round_from_correct; try lia.
  assert (0 <= tone (IZR G / 255000)) by apply tone_nonneg.
  assert (0 < IZR (light - dark)) by (apply IZR_lt; lia).
  simpl. nra.
Qed.

End IntegerBody.

(** ** The loop over the buffer *)

Section Loop.
Local Open Scope nat_scope.

Lemma length_set (data : list Z) (i : nat) (v : number) :
  length (set data i v) = length data.
Proof. unfold set. apply length_insert. Qed.

Lemma length_body (data : list Z) (i : nat) :
  length (body data i) = length data.
Proof. unfold body. cbv zeta. rewrite !length_set. reflexivity. Qed.

Lemma length_loop (fuel i : nat) (data : list Z) :
  length (loop fuel i data) = length data.
Proof.
  revert i data. induction fuel as [| fuel IH]; intros i data; simpl.
  - reflexivity.
  - destruct (i <? length data); [| reflexivity].
    rewrite IH. apply length_body.
Qed.

(** The loop stops by its own test: once [fuel] covers the indices left,
    more of it changes nothing. *)
Lemma loop_fuel_enough (fuel extra i : nat) (data : list Z) :
  length data <= i + 4 * fuel ->
  loop (fuel + extra) i data = loop fuel i data.
Proof.
  revert i data. induction fuel as [| fuel IH]; intros i data Hlen.
  - simpl. destruct extra as [| extra]; [reflexivity |]. simpl.
    destruct (Nat.ltb_spec i (length data)); [lia | reflexivity].
  - simpl. destruct (i <? length data); [| reflexivity].
    apply IH. rewrite length_body. lia.
Qed.

Lemma loop_done (fuel i : nat) (data : list Z) :
  length data <= i -> loop fuel i data = data.
Proof.
  intros Hi. destruct fuel as [| fuel]; [reflexivity |]. cbn [loop].
  destruct (Nat.ltb_spec i (length data)); [lia | reflexivity].
Qed.

Lemma loop_step (fuel i : nat) (data : list Z) :
  i < length data -> loop (S fuel) i data = loop fuel (i + 4) (body data i).
Proof.
  intros Hi. cbn [loop].
  destruct (Nat.ltb_spec i (length data)); [reflexivity | lia].
Qed.

Lemma lookup_set_ne (data : list Z) (i j : nat) (v : number) :
  i <> j -> set data i v !! j = data !! j.
Proof. intros Hij. unfold set. apply list_lookup_insert_ne. exact Hij. Qed.

Lemma lookup_set_eq (data : list Z) (i : nat) (v : number) :
  i < length data -> set data i v !! i = Some (ToUint8Clamp v).
Proof. intros Hi. unfold set. apply list_lookup_insert_eq. exact Hi. Qed.

(** An iteration leaves every index but [i], [i + 1], [i + 2] alone. *)
Lemma lookup_body_other (data : list Z) (i j : nat) :
  j < i \/ i + 3 <= j -> body data i !! j = data !! j.
Proof.
  intros Hj. unfold body. cbv zeta.
  rewrite !lookup_set_ne by lia. reflexivity.
Qed.

(** An iteration stores [stored c] of what it read in channel [c < 3]. *)
Lemma lookup_body_channel (data : list Z) (i c : nat) :
  c < 3 -> i + c < length data ->
  body data i !! (i + c)
  = Some (stored c (get data i) (get data (i + 1)) (get data (i + 2))).
Proof.
  intros Hc Hlen. unfold body. cbv zeta.
  destruct c as [| [| [| c]]]; [| | | lia].
  - rewrite Nat.add_0_r in *. rewrite !lookup_set_ne by lia.
    apply lookup_set_eq. exact Hlen.
  - rewrite lookup_set_ne by lia.
    apply lookup_set_eq. rewrite length_set. exact Hlen.
  - apply lookup_set_eq. rewrite !length_set. exact Hlen.
Qed.

Lemma get_body_other (data : list Z) (i j : nat) :
  j < i \/ i + 3 <= j -> get (body data i) j = get data j.
Proof. intros Hj. unfold get. rewrite lookup_body_other by exact Hj. reflexivity. Qed.

(** Indices below the loop counter are not touched any more. *)
Lemma lookup_loop_below (fuel i j : nat) (data : list Z) :
  j < i -> loop fuel i data !! j = data !! j.
Proof.
  revert i data. induction fuel as [| fuel IH]; intros i data Hj; cbn [loop].
  - reflexivity.
  - destruct (i <? length data); [| reflexivity].
    rewrite IH by lia. apply lookup_body_other. lia.
Qed.

(** The alpha byte of every pixel from the loop counter on is kept. *)
Lemma lookup_loop_alpha (fuel i q : nat) (data : list Z) :
  loop fuel i data !! (i + 4 * q + 3) = data !! (i + 4 * q + 3).
Proof.
  revert i q data. induction fuel as [| fuel IH]; intros i q data; cbn [loop].
  - reflexivity.
  - destruct (i <? length data); [| reflexivity].
    destruct q as [| q].
    + rewrite lookup_loop_below by lia. apply lookup_body_other. lia.
    + replace (i + 4 * S q + 3) with (i + 4 + 4 * q + 3) by lia.
      rewrite IH. apply lookup_body_other. lia.
Qed.

(** The colour bytes of every pixel from the loop counter on are the ones
    computed from the bytes that were there. *)
Lemma lookup_loop_channel (fuel i q c : nat) (data : list Z) :
  length data <= i + 4 * fuel ->
  c < 3 -> i + 4 * q + c < length data ->
  loop fuel i data !! (i + 4 * q + c)
  = Some (stored c (get data (i + 4 * q)) (get data (i + 4 * q + 1))
                   (get data (i + 4 * q + 2))).
Proof.
  revert i q data. induction fuel as [| fuel IH]; intros i q data Hfuel Hc Hlen.
  - lia.
  - cbn [loop]. destruct (Nat.ltb_spec i (length data)) as [Hi | Hi]; [| lia].
    destruct q as [| q].
    + rewrite lookup_loop_below by lia.
      rewrite Nat.mul_0_r, !Nat.add_0_r in *.
      apply lookup_body_channel; assumption.
    + replace (i + 4 * S q) with (i + 4 + 4 * q) in * by lia.
      rewrite IH by (rewrite ?length_body; lia).
      rewrite !get_body_other by lia. reflexivity.
Qed.

End Loop.

(** ** The loop, pixel by pixel *)

Section Pixels.
Local Open Scope nat_scope.

Lemma get_app_r (pre l : list Z) (i : nat) :
  get (pre ++ l) (length pre + i) = get l i.
Proof.
  unfold get. rewrite lookup_app_r by lia.
  replace (length pre + i - length pre) with i by lia. reflexivity.
Qed.

Lemma set_app_r (pre l : list Z) (i : nat) (v : number) :
  set (pre ++ l) (length pre + i) v = pre ++ set l i v.
Proof. unfold set. apply insert_app_r. Qed.

Lemma body_app_r (pre l : list Z) (i : nat) :
  body (pre ++ l) (length pre + i) = pre ++ body l i.
Proof.
  unfold body. cbv zeta.
  rewrite <- !Nat.add_assoc, !get_app_r, !set_app_r. reflexivity.
Qed.

(** Bytes before the loop counter play no part in the rest of the loop. *)
Lemma loop_app_r (fuel i : nat) (pre l : list Z) :
  loop fuel (length pre + i) (pre ++ l) = pre ++ loop fuel i l.
Proof.
  revert i l. induction fuel as [| fuel IH]; intros i l; cbn [loop].
  - reflexivity.
  - rewrite length_app.
    destruct (Nat.ltb_spec i (length l)) as [Hi | Hi];
      destruct (Nat.ltb_spec (length pre + i) (length pre + length l)); try lia.
    + rewrite body_app_r, <- Nat.add_assoc. apply IH.
    + reflexivity.
Qed.

End Pixels.

(** ** The integer version agrees with the loop *)

Section Refinement.
Local Open Scope nat_scope.

(** On bytes, channel [c] is stored as the integer search says. *)
Lemma stored_bytes (r g b : Z) :
  byte r -> byte g -> byte b ->
  (stored 0 (of_Z r) (of_Z g) (of_Z b),
   stored 1 (of_Z r) (of_Z g) (of_Z b),
   stored 2 (of_Z r) (of_Z g) (of_Z b)) = pixelZ r g b.
Proof.
  intros Hr Hg Hb. unfold stored, pixelZ. cbv zeta.
  rewrite normalizedGray_bytes by assumption.
  pose proof (luma1000_range r g b Hr Hg Hb) as HG.
  unfold darkColor, lightColor, Color.r, Color.g, Color.b.
  rewrite !channelZ_correct by lia. reflexivity.
Qed.

Lemma normalizedGray_NaN : normalizedGray_of NaN = NaN.
Proof.
  unfold normalizedGray_of, correctedGray_of, Math_pow, gamma. simpl.
  destruct (Req_dec_T (1 / 0.9) 0) as [H | _]; [lra | reflexivity].
Qed.

(** A pixel cut short by the end of the buffer: the bytes present become 0. *)
Lemma stored_NaN (c : nat) (r g : number) : stored c r g NaN = 0%Z.
Proof.
  unfold stored. cbv zeta.
  replace (gray_of r g NaN) with NaN
    by (unfold gray_of; destruct r, g; reflexivity).
  rewrite normalizedGray_NaN.
  destruct c as [| [| c]]; reflexivity.
Qed.

Lemma body_pixel (r g b a : Z) (rest : list Z) :
  body (r :: g :: b :: a :: rest) 0
  = stored 0 (of_Z r) (of_Z g) (of_Z b)
    :: stored 1 (of_Z r) (of_Z g) (of_Z b)
    :: stored 2 (of_Z r) (of_Z g) (of_Z b) :: a :: rest.
Proof. reflexivity. Qed.

Lemma loop_pixelsZ_le (n : nat) (data : list Z) :
  length data <= n -> Forall byte data ->
  loop (length data) 0 data = pixelsZ data.
Proof.
  revert data. induction n as [| n IH]; intros data Hlen Hbytes.
  - destruct data; [reflexivity | simpl in Hlen; lia].
  - destruct data as [| r [| g [| b [| a rest]]]].
    + reflexivity.
    + cbn [length pixelsZ]. rewrite loop_step by (simpl; lia).
      change (body [r] 0) with [stored 0 (of_Z r) NaN NaN].
      rewrite loop_done by (simpl; lia).
      rewrite stored_NaN. reflexivity.
    + cbn [length pixelsZ]. rewrite loop_step by (simpl; lia).
      change (body [r; g] 0)
        with [stored 0 (of_Z r) (of_Z g) NaN; stored 1 (of_Z r) (of_Z g) NaN].
      rewrite loop_done by (simpl; lia).
      rewrite !stored_NaN. reflexivity.
    + inversion Hbytes as [| ? ? Hr Hb1]; subst.
      inversion Hb1 as [| ? ? Hg Hb2]; subst.
      inversion Hb2 as [| ? ? Hb Hb3]; subst.
      cbn [length pixelsZ]. rewrite loop_step by (simpl; lia).
      change (body [r; g; b] 0)
        with [stored 0 (of_Z r) (of_Z g) (of_Z b);
              stored 1 (of_Z r) (of_Z g) (of_Z b);
              stored 2 (of_Z r) (of_Z g) (of_Z b)].
      rewrite loop_done by (simpl; lia).
      rewrite <- (stored_bytes r g b Hr Hg Hb). reflexivity.
    + inversion Hbytes as [| ? ? Hr Hb1]; subst.
      inversion Hb1 as [| ? ? Hg Hb2]; subst.
      inversion Hb2 as [| ? ? Hb Hb3]; subst.
      inversion Hb3 as [| ? ? Ha Hrest]; subst.
      cbn [length pixelsZ]. rewrite loop_step by (simpl; lia).
      rewrite body_pixel.
      rewrite <- (stored_bytes r g b Hr Hg Hb). cbv iota beta.
      set (r' := stored 0 (of_Z r) (of_Z g) (of_Z b)).
      set (g' := stored 1 (of_Z r) (of_Z g) (of_Z b)).
      set (b' := stored 2 (of_Z r) (of_Z g) (of_Z b)).
      change (r' :: g' :: b' :: a :: rest) with ([r'; g'; b'; a] ++ rest).
      change (0 + 4) with (length [r'; g'; b'; a] + 0).
      rewrite loop_app_r.
      replace (S (S (S (length rest)))) with (length rest + 3) by lia.
      rewrite loop_fuel_enough by lia.
      rewrite IH; [reflexivity | simpl in Hlen; lia | exact Hrest].
Qed.

(** On a buffer of bytes the loop computes [pixelsZ]. *)
Lemma applyDuotoneFilter_pixelsZ (img : ImageData) :
  Forall byte (data img) ->
  data (applyDuotoneFilter img) = pixelsZ (data img).
Proof.
  intros Hbytes. unfold applyDuotoneFilter. cbn [data].
  apply (loop_pixelsZ_le (length (data img))); [lia | exact Hbytes].
Qed.

End Refinement.

(** ** Pixels of a bitmap *)

Section PixelAt.
Local Open Scope nat_scope.

Lemma pixel_at_lookups (data : list Z) (k : nat) (r g b a : Z) :
  pixel_at data k = Some (r, g, b, a) <->
  data !! (4 * k) = Some r /\ data !! (4 * k + 1) = Some g /\
  data !! (4 * k + 2) = Some b /\ data !! (4 * k + 3) = Some a.
Proof.
  unfold pixel_at.
  destruct (data !! (4 * k)) as [r0 |], (data !! (4 * k + 1)) as [g0 |],
    (data !! (4 * k + 2)) as [b0 |], (data !! (4 * k + 3)) as [a0 |];
    split; try (intros H; discriminate H);
    try (intros (H1 & H2 & H3 & H4); discriminate).
  - intros H. injection H as -> -> -> ->. repeat split.
  - intros (H1 & H2 & H3 & H4).
    injection H1 as ->. injection H2 as ->. injection H3 as ->. injection H4 as ->.
    reflexivity.
Qed.

(** Every declared pixel of a well-formed bitmap is there, and is made of bytes. *)
Lemma pixel_at_well_formed (img : ImageData) (k : nat) :
  well_formed img -> k < width img * height img ->
  exists r g b a,
    pixel_at (data img) k = Some (r, g, b, a)
    /\ byte r /\ byte g /\ byte b /\ byte a.
Proof.
  intros [Hlen Hbytes] Hk.
  assert (Hget : forall c, c < 4 ->
            exists x, data img !! (4 * k + c) = Some x /\ byte x).
  { intros c Hc.
    destruct (lookup_lt_is_Some_2 (data img) (4 * k + c)) as [x Hx]; [lia |].
    exists x. split; [exact Hx |].
    eapply Forall_lookup_1; eassumption. }
  destruct (Hget 0) as (r & Hr & Hbr); [lia |].
  destruct (Hget 1) as (g & Hg & Hbg); [lia |].
  destruct (Hget 2) as (b & Hb & Hbb); [lia |].
  destruct (Hget 3) as (a & Ha & Hba); [lia |].
  rewrite Nat.add_0_r in Hr.
  exists r, g, b, a. split; [| tauto].
  apply pixel_at_lookups. tauto.
Qed.

(** What the pass does to pixel [k]: new colour bytes, same alpha. *)
Lemma pixel_at_applyDuotoneFilter (img : ImageData) (k : nat) (r g b a : Z) :
  pixel_at (data img) k = Some (r, g, b, a) ->
  pixel_at (data (applyDuotoneFilter img)) k
  = Some (stored 0 (of_Z r) (of_Z g) (of_Z b),
          stored 1 (of_Z r) (of_Z g) (of_Z b),
          stored 2 (of_Z r) (of_Z g) (of_Z b), a).
Proof.
  intros Hpx. apply pixel_at_lookups in Hpx as (Hr & Hg & Hb & Ha).
  assert (Hlen : 4 * k + 3 < length (data img))
    by (eapply lookup_lt_Some; exact Ha).
  assert (Hch : forall c, c < 3 ->
            data (applyDuotoneFilter img) !! (4 * k + c)
            = Some (stored c (of_Z r) (of_Z g) (of_Z b))).
  { intros c Hc. unfold applyDuotoneFilter. cbn [data].
    change (4 * k + c) with (0 + 4 * k + c).
    rewrite lookup_loop_channel by lia.
    unfold get. cbn [Nat.add].
    rewrite Hr, Hg, Hb. reflexivity. }
  apply pixel_at_lookups. repeat split.
  - rewrite <- (Nat.add_0_r (4 * k)). apply Hch. lia.
  - apply Hch. lia.
  - apply Hch. lia.
  - unfold applyDuotoneFilter. cbn [data].
    change (4 * k + 3) with (0 + 4 * k + 3).
    rewrite lookup_loop_alpha. exact Ha.
Qed.

Lemma Forall_byte_body (data : list Z) (i : nat) :
  Forall byte data -> Forall byte (body data i).
Proof.
  intros H. unfold body, set. cbv zeta.
  repeat (apply Forall_insert; [| apply ToUint8Clamp_range]). exact H.
Qed.

Lemma Forall_byte_loop (fuel i : nat) (data : list Z) :
  Forall byte data -> Forall byte (loop fuel i data).
Proof.
  revert i data. induction fuel as [| fuel IH]; intros i data H; cbn [loop].
  - exact H.
  - destruct (i <? length data); [| exact H].
    apply IH, Forall_byte_body, H.
Qed.

(** The pass turns a well-formed bitmap into a well-formed bitmap. *)
Lemma well_formed_applyDuotoneFilter (img : ImageData) :
  well_formed img -> well_formed (applyDuotoneFilter img).
Proof.
  intros [Hlen Hbytes]. split; cbn [applyDuotoneFilter data width height].
  - rewrite length_loop. exact Hlen.
  - apply Forall_byte_loop, Hbytes.
Qed.

Lemma pixel_at_bytes (data : list Z) (k : nat) (r g b a : Z) :
  Forall byte data -> pixel_at data k = Some (r, g, b, a) ->
  byte r /\ byte g /\ byte b /\ byte a.
Proof.
  intros Hbytes Hpx. apply pixel_at_lookups in Hpx as (Hr & Hg & Hb & Ha).
  split; [| split; [| split]]; eapply Forall_lookup_1; eassumption.
Qed.

End PixelAt.

(** ** The colour of a pixel of bytes *)

Section Colour.
Local Open Scope R_scope.

Lemma tone_gt (x c : R) : 0 <= x -> c ^ 9 < x ^ 10 -> c < tone x.
Proof.
  intros Hx H. rewrite <- tone_pow9 in H by exact Hx.
  apply (pow_lt_cancel c (tone x) 9); [apply tone_nonneg | exact H].
Qed.

Lemma tone_lt (x c : R) : 0 <= x -> 0 <= c -> x ^ 10 < c ^ 9 -> tone x < c.
Proof.
  intros Hx Hc H. rewrite <- tone_pow9 in H by exact Hx.
  apply (pow_lt_cancel (tone x) c 9); [exact Hc | exact H].
Qed.

Lemma correctedGray_Num (G : R) :
  0 <= G -> correctedGray_of (Num G) = Num (255 * tone (G / 255)).
Proof.
  intros HG. unfold correctedGray_of.
  change (Num G / Num 255)%num with (Num (G / 255)).
  rewrite Math_pow_tone by lra. reflexivity.
Qed.

(** The base of the power lies in [0, 1] on bytes. *)
Lemma base_range (r g b : Z) :
  byte r -> byte g -> byte b -> 0 <= IZR (luma1000 r g b) / 255000 <= 1.
Proof.
  intros Hr Hg Hb.
  destruct (luma1000_range r g b Hr Hg Hb) as [H0 H1].
  apply IZR_le in H0, H1. lra.
Qed.

(** The interpolation parameter lies in [0, 1] on bytes. *)
Lemma tone_range (r g b : Z) :
  byte r -> byte g -> byte b ->
  0 <= tone (IZR (luma1000 r g b) / 255000) <= 1.
Proof.
  intros Hr Hg Hb. split; [apply tone_nonneg |].
  apply tone_le_1, base_range; assumption.
Qed.

(** The three stores of an iteration on bytes, as real expressions. *)
Lemma stored_real (r g b : Z) :
  byte r -> byte g -> byte b ->
  let t := tone (IZR (luma1000 r g b) / 255000) in
  stored 0 (of_Z r) (of_Z g) (of_Z b) = ToUint8Clamp (Num (27 + (247 - 27) * t))
  /\ stored 1 (of_Z r) (of_Z g) (of_Z b) = ToUint8Clamp (Num (96 + (132 - 96) * t))
  /\ stored 2 (of_Z r) (of_Z g) (of_Z b) = ToUint8Clamp (Num (47 + (197 - 47) * t)).
Proof.
  intros Hr Hg Hb t. unfold stored. cbv zeta.
  rewrite normalizedGray_bytes by assumption.
  repeat split; reflexivity.
Qed.

(** A pixel of bytes is mapped to the colour the integer version computes. *)
Lemma pixel_bytes (img : ImageData) (k : nat) (r g b a r' g' b' : Z) :
  byte r -> byte g -> byte b ->
  pixel_at (data img) k = Some (r, g, b, a) ->
  pixelZ r g b = (r', g', b') ->
  pixel_at (data (applyDuotoneFilter img)) k = Some (r', g', b', a).
Proof.
  intros Hr Hg Hb Hpx Hz.
  rewrite (pixel_at_applyDuotoneFilter img k r g b a Hpx).
  rewrite (stored_bytes r g b Hr Hg Hb), Hz. reflexivity.
Qed.

(** A channel interpolated with a parameter in [0, 1] is stored between its
    endpoints, within one half of the interpolated value. *)
Lemma channel_bounds (d l : Z) (t : R) :
  (0 <= d)%Z -> (d <= l)%Z -> (l <= 255)%Z -> 0 <= t <= 1 ->
  (d <= ToUint8Clamp (Num (IZR d + (IZR l - IZR d) * t)) <= l)%Z
  /\ rounded_of (IZR d + (IZR l - IZR d) * t)
                (ToUint8Clamp (Num (IZR d + (IZR l - IZR d) * t))).
Proof.
  intros Hd Hdl Hl Ht.
  assert (Hd' := IZR_le _ _ Hd). assert (Hdl' := IZR_le _ _ Hdl).
  assert (Hl' := IZR_le _ _ Hl).
  set (v := IZR d + (IZR l - IZR d) * t).
  assert (Hv : IZR d <= v <= IZR l) by (unfold v; nra).
  split; [split |].
  - apply Z.le_trans with (ToUint8Clamp (Num (IZR d))).
    + rewrite ToUint8Clamp_IZR by lia. lia.
    + apply ToUint8Clamp_mono. lra.
  - apply Z.le_trans with (ToUint8Clamp (Num (IZR l))).
    + apply ToUint8Clamp_mono. lra.
    + rewrite ToUint8Clamp_IZR by lia. lia.
  - split; [| apply ToUint8Clamp_range].
    pose proof (ToUint8Clamp_nearest v) as Hn.
    rewrite clamped_of_id in Hn by lra.
    apply Rabs_le. lra.
Qed.

Lemma channel_mono (d l : Z) (t t' : R) :
  (d <= l)%Z -> t <= t' ->
  (ToUint8Clamp (Num (IZR d + (IZR l - IZR d) * t))
   <= ToUint8Clamp (Num (IZR d + (IZR l - IZR d) * t')))%Z.
Proof.
  intros Hdl Ht. apply IZR_le in Hdl.
  apply ToUint8Clamp_mono. nra.
Qed.

Lemma clamp01_id (t : R) : 0 <= t <= 1 -> clamp01 t = t.
Proof.
  intros Ht. unfold clamp01, Rmin, Rmax.
  repeat destruct (Rle_dec _ _); lra.
Qed.

End Colour.

(** * The claims *)

Section Claims.
Local Open Scope R_scope.

(** C6. A pixel with channels (0,0,0): the gray, the corrected gray and the
    interpolation parameter are 0, and the pixel is rewritten to the dark
    endpoint (27,96,47), its alpha kept. *)
Theorem C6_black_pixel (img : ImageData) (k : nat) (a : Z) :
  pixel_at (data img) k = Some (0, 0, 0, a)%Z ->
  let gray := gray_of (of_Z 0) (of_Z 0) (of_Z 0) in
  gray = Num 0
  /\ correctedGray_of gray = Num 0
  /\ normalizedGray_of gray = Num 0
  /\ pixel_at (data (applyDuotoneFilter img)) k = Some (27, 96, 47, a)%Z.
Proof.
  intros Hpx gray.
  assert (Hgray : gray = Num 0).
  { unfold gray, gray_of, of_Z. simpl. f_equal. lra. }
  rewrite Hgray. repeat split.
  - rewrite correctedGray_Num by lra.
    replace (0 / 255) with 0 by lra. rewrite tone_0. f_equal. lra.
  - rewrite normalizedGray_Num by lra.
    replace (0 / 255) with 0 by lra. rewrite tone_0. reflexivity.
  - apply (pixel_bytes img k 0 0 0 a); unfold byte; try lia; try exact Hpx.
    vm_compute. reflexivity.
Qed.

Lemma C6_black_pixel_witness :
  pixel_at (data black1) 0 = Some (0, 0, 0, 255)%Z
  /\ pixel_at (data (applyDuotoneFilter black1)) 0 = Some (27, 96, 47, 255)%Z.
Proof.
  split; [reflexivity |].
  apply (C6_black_pixel black1 0 255). reflexivity.
Defined.

(** C7. A pixel with channels (255,255,255): the gray and the corrected gray
    are 255, the interpolation parameter is 1, and the pixel is rewritten to
    the light endpoint (247,132,197), its alpha kept. *)
Theorem C7_white_pixel (img : ImageData) (k : nat) (a : Z) :
  pixel_at (data img) k = Some (255, 255, 255, a)%Z ->
  let gray := gray_of (of_Z 255) (of_Z 255) (of_Z 255) in
  gray = Num 255
  /\ correctedGray_of gray = Num 255
  /\ normalizedGray_of gray = Num 1
  /\ pixel_at (data (applyDuotoneFilter img)) k = Some (247, 132, 197, a)%Z.
Proof.
  intros Hpx gray.
  assert (Hgray : gray = Num 255).
  { unfold gray, gray_of, of_Z. simpl. f_equal. lra. }
  rewrite Hgray. repeat split.
  - rewrite correctedGray_Num by lra.
    replace (255 / 255) with 1 by lra. rewrite tone_1. f_equal. lra.
  - rewrite normalizedGray_Num by lra.
    replace (255 / 255) with 1 by lra. rewrite tone_1. reflexivity.
  - apply (pixel_bytes img k 255 255 255 a); unfold byte; try lia; try exact Hpx.
    vm_compute. reflexivity.
Qed.

Lemma C7_white_pixel_witness :
  pixel_at (data white1) 0 = Some (255, 255, 255, 255)%Z
  /\ pixel_at (data (applyDuotoneFilter white1)) 0 = Some (247, 132, 197, 255)%Z.
Proof.
  split; [reflexivity |].
  apply (C7_white_pixel white1 0 255). reflexivity.
Defined.

(** C1 (what the code does). A pixel with channels (128,128,128) and any
    alpha is rewritten to (129,113,117), its alpha kept.  The gray is 128 (to
    within a millionth), and the gamma step darkens it: the corrected gray is
    below the gray, and the interpolation parameter lies between 0.4649 and
    0.4650, below gray/255.  The comment of the gamma step says "lighter", and
    the claim's 0.5438 and (147,116,129) are lighter values. *)
Theorem C1_midgray_darkened (img : ImageData) (k : nat) (a : Z) :
  pixel_at (data img) k = Some (128, 128, 128, a)%Z ->
  pixel_at (data (applyDuotoneFilter img)) k = Some (129, 113, 117, a)%Z
  /\ exists G C t : R,
       gray_of (of_Z 128) (of_Z 128) (of_Z 128) = Num G
       /\ Rabs (G - 128) <= 1 / 1000000
       /\ correctedGray_of (Num G) = Num C
       /\ normalizedGray_of (Num G) = Num t
       /\ C < G
       /\ 0.4649 < t < 0.4650
       /\ t < G / 255.
Proof.
  intros Hpx. split.
  - apply (pixel_bytes img k 128 128 128 a); unfold byte; try lia; try exact Hpx.
    vm_compute. reflexivity.
  - assert (Hlo : 0.4649 < tone (128 / 255)) by (apply tone_gt; lra).
    assert (Hhi : tone (128 / 255) < 0.4650) by (apply tone_lt; lra).
    exists 128, (255 * tone (128 / 255)), (tone (128 / 255)).
    split; [unfold gray_of, of_Z; simpl; f_equal; lra |].
    split; [rewrite Rminus_diag, Rabs_R0; lra |].
    split; [apply correctedGray_Num; lra |].
    split; [apply normalizedGray_Num; lra |].
    repeat split; lra.
Qed.

Lemma C1_midgray_darkened_witness :
  pixel_at (data midgray1) 0 = Some (128, 128, 128, 200)%Z
  /\ pixel_at (data (applyDuotoneFilter midgray1)) 0
     = Some (129, 113, 117, 200)%Z.
Proof.
  split; [reflexivity |].
  apply (C1_midgray_darkened midgray1 0 200). reflexivity.
Defined.

(** C3. For a pixel of a well-formed bitmap the interpolation parameter [t]
    lies in [0, 1], so that clamping it to [0, 1] leaves it as it is, and each
    colour byte of the output is [dark + (light - dark) * t] for the clamped
    [t], rounded to the nearest integer and within [0, 255]. *)
Theorem C3_interpolation (img : ImageData) (k : nat) (r g b a : Z) :
  well_formed img ->
  pixel_at (data img) k = Some (r, g, b, a) ->
  exists (t : R) (r' g' b' : Z),
    normalizedGray_of (gray_of (of_Z r) (of_Z g) (of_Z b)) = Num t
    /\ 0 <= t <= 1 /\ clamp01 t = t
    /\ pixel_at (data (applyDuotoneFilter img)) k = Some (r', g', b', a)
    /\ rounded_of (27 + (247 - 27) * clamp01 t) r'
    /\ rounded_of (96 + (132 - 96) * clamp01 t) g'
    /\ rounded_of (47 + (197 - 47) * clamp01 t) b'.
Proof.
  intros [_ Hbytes] Hpx.
  destruct (pixel_at_bytes _ _ _ _ _ _ Hbytes Hpx) as (Hr & Hg & Hb & _).
  pose proof (tone_range r g b Hr Hg Hb) as Ht.
  destruct (stored_real r g b Hr Hg Hb) as (H0 & H1 & H2).
  set (t := tone (IZR (luma1000 r g b) / 255000)) in *.
  exists t, (stored 0 (of_Z r) (of_Z g) (of_Z b)),
    (stored 1 (of_Z r) (of_Z g) (of_Z b)), (stored 2 (of_Z r) (of_Z g) (of_Z b)).
  rewrite (clamp01_id t Ht).
  split; [apply normalizedGray_bytes; assumption |].
  split; [exact Ht |]. split; [reflexivity |].
  split; [apply pixel_at_applyDuotoneFilter; exact Hpx |].
  rewrite H0, H1, H2.
  split; [| split].
  - apply (channel_bounds 27 247 t); [lia | lia | lia | exact Ht].
  - apply (channel_bounds 96 132 t); [lia | lia | lia | exact Ht].
  - apply (channel_bounds 47 197 t); [lia | lia | lia | exact Ht].
Qed.

Lemma well_formed_two_by_one : well_formed two_by_one.
Proof.
  split; [reflexivity |]. repeat constructor; unfold byte; lia.
Defined.

Lemma C3_interpolation_witness :
  well_formed two_by_one
  /\ pixel_at (data two_by_one) 1 = Some (11, 200, 30, 7)%Z
  /\ exists (t : R) (r' g' b' : Z),
       normalizedGray_of (gray_of (of_Z 11) (of_Z 200) (of_Z 30)) = Num t
       /\ 0 <= t <= 1 /\ clamp01 t = t
       /\ pixel_at (data (applyDuotoneFilter two_by_one)) 1
          = Some (r', g', b', 7%Z)
       /\ rounded_of (27 + (247 - 27) * clamp01 t) r'
       /\ rounded_of (96 + (132 - 96) * clamp01 t) g'
       /\ rounded_of (47 + (197 - 47) * clamp01 t) b'.
Proof.
  split; [exact well_formed_two_by_one |]. split; [reflexivity |].
  apply (C3_interpolation two_by_one 1 11 200 30 7).
  - exact well_formed_two_by_one.
  - reflexivity.
Defined.

(** C4. Between two pixels of well-formed bitmaps, if no input channel of
    the second is below that of the first (in particular when one channel is
    increased and the other two are held), then the gray does not decrease,
    the interpolation parameter does not decrease, and no output colour byte
    decreases; each stays at or below its light endpoint. *)
Theorem C4_monotone (img img' : ImageData) (k k' : nat)
    (r g b a r' g' b' a' : Z) :
  well_formed img -> well_formed img' ->
  pixel_at (data img) k = Some (r, g, b, a) ->
  pixel_at (data img') k' = Some (r', g', b', a') ->
  (r <= r')%Z -> (g <= g')%Z -> (b <= b')%Z ->
  exists (G G' t t' : R) (ro go bo ro' go' bo' : Z),
    gray_of (of_Z r) (of_Z g) (of_Z b) = Num G
    /\ gray_of (of_Z r') (of_Z g') (of_Z b') = Num G'
    /\ G <= G'
    /\ normalizedGray_of (Num G) = Num t
    /\ normalizedGray_of (Num G') = Num t'
    /\ t <= t'
    /\ pixel_at (data (applyDuotoneFilter img)) k = Some (ro, go, bo, a)
    /\ pixel_at (data (applyDuotoneFilter img')) k' = Some (ro', go', bo', a')
    /\ (ro <= ro' <= 247)%Z /\ (go <= go' <= 132)%Z /\ (bo <= bo' <= 197)%Z.
Proof.
  intros [_ Hbytes] [_ Hbytes'] Hpx Hpx' Hrr Hgg Hbb.
  destruct (pixel_at_bytes _ _ _ _ _ _ Hbytes Hpx) as (Hr & Hg & Hb & _).
  destruct (pixel_at_bytes _ _ _ _ _ _ Hbytes' Hpx') as (Hr' & Hg' & Hb' & _).
  pose proof (base_range r g b Hr Hg Hb) as Hx.
  pose proof (tone_range r' g' b' Hr' Hg' Hb') as Ht'.
  assert (HGG : (luma1000 r g b <= luma1000 r' g' b')%Z)
    by (unfold luma1000; lia).
  apply IZR_le in HGG.
  assert (Htt : tone (IZR (luma1000 r g b) / 255000)
                <= tone (IZR (luma1000 r' g' b') / 255000))
    by (apply tone_mono; lra).
  destruct (stored_real r g b Hr Hg Hb) as (H0 & H1 & H2).
  destruct (stored_real r' g' b' Hr' Hg' Hb') as (H0' & H1' & H2').
  exists (IZR (luma1000 r g b) / 1000), (IZR (luma1000 r' g' b') / 1000),
    (tone (IZR (luma1000 r g b) / 255000)),
    (tone (IZR (luma1000 r' g' b') / 255000)),
    (stored 0 (of_Z r) (of_Z g) (of_Z b)), (stored 1 (of_Z r) (of_Z g) (of_Z b)),
    (stored 2 (of_Z r) (of_Z g) (of_Z b)),
    (stored 0 (of_Z r') (of_Z g') (of_Z b')),
    (stored 1 (of_Z r') (of_Z g') (of_Z b')),
    (stored 2 (of_Z r') (of_Z g') (of_Z b')).
  split; [apply gray_of_bytes |]. split; [apply gray_of_bytes |].
  split; [lra |].
  split; [rewrite <- gray_of_bytes; apply normalizedGray_bytes; assumption |].
  split; [rewrite <- gray_of_bytes; apply normalizedGray_bytes; assumption |].
  split; [exact Htt |].
  split; [apply pixel_at_applyDuotoneFilter; exact Hpx |].
  split; [apply pixel_at_applyDuotoneFilter; exact Hpx' |].
  rewrite H0, H1, H2, H0', H1', H2'.
  split; [| split]; split.
  - apply (channel_mono 27 247); [lia | exact Htt].
  - apply (channel_bounds 27 247); [lia | lia | lia | exact Ht'].
  - apply (channel_mono 96 132); [lia | exact Htt].
  - apply (channel_bounds 96 132); [lia | lia | lia | exact Ht'].
  - apply (channel_mono 47 197); [lia | exact Htt].
  - apply (channel_bounds 47 197); [lia | lia | lia | exact Ht'].
Qed.

Lemma C4_monotone_witness :
  exists (G G' t t' : R) (ro go bo ro' go' bo' : Z),
    gray_of (of_Z 10) (of_Z 200) (of_Z 30) = Num G
    /\ gray_of (of_Z 11) (of_Z 200) (of_Z 30) = Num G'
    /\ G <= G'
    /\ normalizedGray_of (Num G) = Num t
    /\ normalizedGray_of (Num G') = Num t'
    /\ t <= t'
    /\ pixel_at (data (applyDuotoneFilter two_by_one)) 0
       = Some (ro, go, bo, 255%Z)
    /\ pixel_at (data (applyDuotoneFilter two_by_one)) 1
       = Some (ro', go', bo', 7%Z)
    /\ (ro <= ro' <= 247)%Z /\ (go <= go' <= 132)%Z /\ (bo <= bo' <= 197)%Z.
Proof.
  apply (C4_monotone two_by_one two_by_one 0 1 10 200 30 255 11 200 30 7).
  - exact well_formed_two_by_one.
  - exact well_formed_two_by_one.
  - reflexivity.
  - reflexivity.
  - lia.
  - lia.
  - lia.
Defined.

(** C5. The mapper is not idempotent: on the well-formed one-pixel black
    bitmap the first application gives (27,96,47) and the second changes
    it. *)
Theorem C5_not_idempotent :
  exists img : ImageData,
    well_formed img
    /\ applyDuotoneFilter (applyDuotoneFilter img) <> applyDuotoneFilter img.
Proof.
  exists black1.
  assert (Hwf : well_formed black1).
  { split; [reflexivity |]. repeat constructor; unfold byte; lia. }
  split; [exact Hwf |].
  assert (H1 : data (applyDuotoneFilter black1) = [27; 96; 47; 255]%Z).
  { rewrite applyDuotoneFilter_pixelsZ by apply Hwf. vm_compute. reflexivity. }
  assert (H2 : data (applyDuotoneFilter (applyDuotoneFilter black1))
               = [79; 105; 83; 255]%Z).
  { rewrite applyDuotoneFilter_pixelsZ
      by apply (well_formed_applyDuotoneFilter black1 Hwf).
    rewrite H1. vm_compute. reflexivity. }
  intros Heq. apply (f_equal data) in Heq.
  rewrite H1, H2 in Heq. discriminate Heq.
Qed.

(** C8. Every pixel of a well-formed bitmap keeps its alpha byte: the output
    pixel differs from the input pixel in its R, G and B bytes at most. *)
Theorem C8_alpha_preserved (img : ImageData) (k : nat) :
  well_formed img -> (k < width img * height img)%nat ->
  exists r g b a r' g' b' : Z,
    pixel_at (data img) k = Some (r, g, b, a)
    /\ pixel_at (data (applyDuotoneFilter img)) k = Some (r', g', b', a)
    /\ data (applyDuotoneFilter img) !! (4 * k + 3)%nat
       = data img !! (4 * k + 3)%nat.
Proof.
  intros Hwf Hk.
  destruct (pixel_at_well_formed img k Hwf Hk) as (r & g & b & a & Hpx & _).
  exists r, g, b, a, (stored 0 (of_Z r) (of_Z g) (of_Z b)),
    (stored 1 (of_Z r) (of_Z g) (of_Z b)), (stored 2 (of_Z r) (of_Z g) (of_Z b)).
  split; [exact Hpx |].
  split; [apply pixel_at_applyDuotoneFilter; exact Hpx |].
  unfold applyDuotoneFilter. cbn [data].
  apply (lookup_loop_alpha (length (data img)) 0 k).
Qed.

Lemma C8_alpha_preserved_witness :
  exists r g b a r' g' b' : Z,
    pixel_at (data two_by_one) 1 = Some (r, g, b, a)
    /\ pixel_at (data (applyDuotoneFilter two_by_one)) 1 = Some (r', g', b', a)
    /\ data (applyDuotoneFilter two_by_one) !! (4 * 1 + 3)%nat
       = data two_by_one !! (4 * 1 + 3)%nat.
Proof.
  apply (C8_alpha_preserved two_by_one 1).
  - exact well_formed_two_by_one.
  - simpl. lia.
Defined.

(** C9. The output of a well-formed bitmap has the width and the height of
    the input, hence as many pixels, and is well-formed. *)
Theorem C9_dimensions (img : ImageData) :
  well_formed img ->
  width (applyDuotoneFilter img) = width img
  /\ height (applyDuotoneFilter img) = height img
  /\ length (data (applyDuotoneFilter img)) = (width img * height img * 4)%nat
  /\ well_formed (applyDuotoneFilter img).
Proof.
  intros Hwf. split; [reflexivity |]. split; [reflexivity |]. split.
  - cbn [applyDuotoneFilter data]. rewrite length_loop. apply Hwf.
  - apply well_formed_applyDuotoneFilter, Hwf.
Qed.

Lemma C9_dimensions_witness :
  width (applyDuotoneFilter two_by_one) = 2%nat
  /\ height (applyDuotoneFilter two_by_one) = 1%nat
  /\ length (data (applyDuotoneFilter two_by_one)) = 8%nat
  /\ well_formed (applyDuotoneFilter two_by_one).
Proof.
  apply (C9_dimensions two_by_one). exact well_formed_two_by_one.
Defined.

(** C10. Every output pixel of a well-formed bitmap has R in [27, 247], G in
    [96, 132] and B in [47, 197], and its colour is the point of the segment
    from dark to light at one parameter [t] in [0, 1], each channel rounded. *)
Theorem C10_between_endpoints (img : ImageData) (k : nat) :
  well_formed img -> (k < width img * height img)%nat ->
  exists (r' g' b' a' : Z) (t : R),
    pixel_at (data (applyDuotoneFilter img)) k = Some (r', g', b', a')
    /\ (27 <= r' <= 247)%Z /\ (96 <= g' <= 132)%Z /\ (47 <= b' <= 197)%Z
    /\ 0 <= t <= 1
    /\ rounded_of (27 + (247 - 27) * t) r'
    /\ rounded_of (96 + (132 - 96) * t) g'
    /\ rounded_of (47 + (197 - 47) * t) b'.
Proof.
  intros Hwf Hk.
  destruct (pixel_at_well_formed img k Hwf Hk)
    as (r & g & b & a & Hpx & Hr & Hg & Hb & _).
  pose proof (tone_range r g b Hr Hg Hb) as Ht.
  destruct (stored_real r g b Hr Hg Hb) as (H0 & H1 & H2).
  set (t := tone (IZR (luma1000 r g b) / 255000)) in *.
  exists (stored 0 (of_Z r) (of_Z g) (of_Z b)),
    (stored 1 (of_Z r) (of_Z g) (of_Z b)),
    (stored 2 (of_Z r) (of_Z g) (of_Z b)), a, t.
  split; [apply pixel_at_applyDuotoneFilter; exact Hpx |].
  rewrite H0, H1, H2.
  destruct (channel_bounds 27 247 t) as [Br Rr]; [lia | lia | lia | exact Ht |].
  destruct (channel_bounds 96 132 t) as [Bg Rg]; [lia | lia | lia | exact Ht |].
  destruct (channel_bounds 47 197 t) as [Bb Rb]; [lia | lia | lia | exact Ht |].
  repeat (split; [assumption |]). exact Rb.
Qed.

Lemma C10_between_endpoints_witness :
  exists (r' g' b' a' : Z) (t : R),
    pixel_at (data (applyDuotoneFilter two_by_one)) 0 = Some (r', g', b', a')
    /\ (27 <= r' <= 247)%Z /\ (96 <= g' <= 132)%Z /\ (47 <= b' <= 197)%Z
    /\ 0 <= t <= 1
    /\ rounded_of (27 + (247 - 27) * t) r'
    /\ rounded_of (96 + (132 - 96) * t) g'
    /\ rounded_of (47 + (197 - 47) * t) b'.
Proof.
  apply (C10_between_endpoints two_by_one 0).
  - exact well_formed_two_by_one.
  - simpl. lia.
Defined.

End Claims.

(** * Further properties of the pixel loop *)

Section MoreLoop.
Local Open Scope nat_scope.

(** One full pixel at the head of the buffer, then the loop on the rest. *)
Lemma loop_cons4 (r g b a : Z) (rest : list Z) :
  loop (length (r :: g :: b :: a :: rest)) 0 (r :: g :: b :: a :: rest)
  = stored 0 (of_Z r) (of_Z g) (of_Z b)
    :: stored 1 (of_Z r) (of_Z g) (of_Z b)
    :: stored 2 (of_Z r) (of_Z g) (of_Z b)
    :: a :: loop (length rest) 0 rest.
Proof.
  cbn [length]. rewrite loop_step by (simpl; lia).
  rewrite body_pixel.
  set (r' := stored 0 (of_Z r) (of_Z g) (of_Z b)).
  set (g' := stored 1 (of_Z r) (of_Z g) (of_Z b)).
  set (b' := stored 2 (of_Z r) (of_Z g) (of_Z b)).
  change (r' :: g' :: b' :: a :: rest) with ([r'; g'; b'; a] ++ rest).
  change (0 + 4) with (length [r'; g'; b'; a] + 0).
  rewrite loop_app_r.
  replace (S (S (S (length rest)))) with (length rest + 3) by lia.
  rewrite loop_fuel_enough by lia. reflexivity.
Qed.

Lemma loop_app4 (n : nat) (d1 d2 : list Z) :
  length d1 = 4 * n ->
  loop (length (d1 ++ d2)) 0 (d1 ++ d2)
  = loop (length d1) 0 d1 ++ loop (length d2) 0 d2.
Proof.
  revert d1. induction n as [| n IH]; intros d1 Hlen.
  - destruct d1; [reflexivity | simpl in Hlen; lia].
  - destruct d1 as [| r [| g [| b [| a d1]]]]; try (simpl in Hlen; lia).
    change ((r :: g :: b :: a :: d1) ++ d2) with (r :: g :: b :: a :: (d1 ++ d2)).
    rewrite !loop_cons4, IH by (simpl in Hlen; lia). reflexivity.
Qed.

(** The loop on fewer than three bytes: the gray is [NaN], zeros are stored. *)
Lemma loop_short (tail : list Z) :
  length tail = 1 \/ length tail = 2 ->
  loop (length tail) 0 tail = repeat 0%Z (length tail).
Proof.
  intros Hlen.
  destruct tail as [| r [| g [| b tail]]]; try (simpl in Hlen; lia).
  - cbn [length]. rewrite loop_step by (simpl; lia).
    change (body [r] 0) with [stored 0 (of_Z r) NaN NaN].
    rewrite loop_done by (simpl; lia).
    rewrite stored_NaN. reflexivity.
  - cbn [length]. rewrite loop_step by (simpl; lia).
    change (body [r; g] 0)
      with [stored 0 (of_Z r) (of_Z g) NaN; stored 1 (of_Z r) (of_Z g) NaN].
    rewrite loop_done by (simpl; lia).
    rewrite !stored_NaN. reflexivity.
Qed.

End MoreLoop.

Section MoreColour.
Local Open Scope R_scope.

(** The power with exponent [1 / 0.9] does not raise a value of [0, 1]. *)
Lemma tone_le_id (x : R) : 0 <= x <= 1 -> tone x <= x.
Proof.
  intros [Hx0 Hx1].
  destruct (Rle_lt_dec (tone x) x) as [H | H]; [exact H |].
  pose proof (pow_lt_strict x (tone x) 8 (conj Hx0 H)) as Hlt.
  rewrite tone_pow9 in Hlt by exact Hx0.
  assert (H9 : 0 <= x ^ 9) by (apply pow_le; exact Hx0).
  change (x ^ 10) with (x * x ^ 9) in Hlt. nra.
Qed.

Lemma tone_lt_id (x : R) : 0 < x < 1 -> tone x < x.
Proof.
  intros [Hx0 Hx1].
  apply (pow_lt_cancel (tone x) x 9); [lra |].
  rewrite tone_pow9 by lra.
  assert (H9 : 0 < x ^ 9) by (apply pow_lt; exact Hx0).
  change (x ^ 10) with (x * x ^ 9). nra.
Qed.

End MoreColour.

Section IntegerTest.
Local Open Scope R_scope.

Lemma tone_scaled_pow9 (k G : Z) :
  (0 <= G)%Z ->
  IZR ((2 * k) ^ 9 * G ^ 10)
  = (2 * (IZR k * tone (IZR G / 255000))) ^ 9 * 255000 ^ 10.
Proof.
  intros HG. apply IZR_le in HG.
  replace (2 * (IZR k * tone (IZR G / 255000)))
    with ((2 * IZR k) * tone (IZR G / 255000)) by ring.
  rewrite (Rpow_mult_distr (2 * IZR k)).
  rewrite tone_pow9 by (apply Rmult_le_pos; lra).
  rewrite mult_IZR.
  change 9%Z with (Z.of_nat 9). change 10%Z with (Z.of_nat 10).
  rewrite <- !pow_IZR, mult_IZR.
  field.
Qed.

Lemma odd_pow_nonpos (c : R) : c <= 0 -> c ^ 9 <= 0.
Proof.
  intros Hc.
  replace (c ^ 9) with (- ((- c) ^ 9)) by ring.
  assert (0 <= (- c) ^ 9) by (apply pow_le; lra). lra.
Qed.

(** The byte stored for a channel, told by integers alone. *)
Lemma channel_integer (d l G : Z) :
  (0 <= d)%Z -> (d <= l)%Z -> (l <= 255)%Z -> (0 <= G <= 255000)%Z ->
  let n := ToUint8Clamp (Num (IZR d + (IZR l - IZR d) * tone (IZR G / 255000))) in
  ((2 * (n - d) - 1) ^ 9 * 255000 ^ 10 <= (2 * (l - d)) ^ 9 * G ^ 10
   <= (2 * (n - d) + 1) ^ 9 * 255000 ^ 10)%Z.
Proof.
  intros Hd Hdl Hl HG n.
  assert (Ht : 0 <= tone (IZR G / 255000) <= 1).
  { split; [apply tone_nonneg |]. apply tone_le_1.
    destruct HG as [HG0 HG1]. apply IZR_le in HG0, HG1. lra. }
  destruct (channel_bounds d l _ Hd Hdl Hl Ht) as [_ [Hnear _]].
  fold n in Hnear.
  assert (Hnear' : IZR n - 1 / 2 <= IZR d + (IZR l - IZR d) * tone (IZR G / 255000)
                   <= IZR n + 1 / 2).
  { unfold Rabs in Hnear. destruct (Rcase_abs _) in Hnear; lra. }
  clear Hnear.
  assert (Hk : 0 <= IZR (l - d)) by (apply IZR_le; lia).
  set (v := IZR (l - d) * tone (IZR G / 255000)) in *.
  assert (Hv : 0 <= v) by (unfold v; apply Rmult_le_pos; lra).
  rewrite minus_IZR in Hk.
  assert (Hv' : v = (IZR l - IZR d) * tone (IZR G / 255000))
    by (unfold v; rewrite minus_IZR; reflexivity).
  assert (HD : 0 < 255000 ^ 10) by (apply pow_lt; lra).
  assert (Hpow : forall c : Z,
            IZR (c ^ 9 * 255000 ^ 10) = IZR c ^ 9 * 255000 ^ 10).
  { intros c. rewrite mult_IZR.
    change 9%Z with (Z.of_nat 9). change 10%Z with (Z.of_nat 10).
    rewrite <- !pow_IZR. reflexivity. }
  split; apply le_IZR; rewrite Hpow, (tone_scaled_pow9 (l - d) G) by lia;
    fold v; apply Rmult_le_compat_r; try lra.
  - rewrite minus_IZR, mult_IZR, minus_IZR.
    destruct (Rle_lt_dec (2 * (IZR n - IZR d) - 1) 0) as [Hneg | Hpos].
    + apply Rle_trans with 0; [apply odd_pow_nonpos; exact Hneg |].
      apply pow_le. lra.
    + apply pow_incr. lra.
  - rewrite plus_IZR, mult_IZR, minus_IZR.
    apply pow_incr. lra.
Qed.

End IntegerTest.

Section LoopExtras.
Local Open Scope R_scope.

(** X1. The gamma step never lightens: on a pixel of bytes the corrected
    gray lies between 0 and the gray, and strictly below it for a gray
    strictly between 0 and 255. *)
Theorem gamma_never_lightens (r g b : Z) :
  byte r -> byte g -> byte b ->
  exists G C : R,
    gray_of (of_Z r) (of_Z g) (of_Z b) = Num G
    /\ correctedGray_of (Num G) = Num C
    /\ 0 <= C /\ C <= G /\ G <= 255
    /\ (0 < G < 255 -> C < G).
Proof.
  intros Hr Hg Hb.
  pose proof (luma1000_range r g b Hr Hg Hb) as [HG0 HG1].
  apply IZR_le in HG0, HG1.
  set (G := IZR (luma1000 r g b) / 1000).
  assert (HG : 0 <= G <= 255) by (unfold G; lra).
  exists G, (255 * tone (G / 255)).
  split; [apply gray_of_bytes |].
  split; [apply correctedGray_Num; lra |].
  pose proof (tone_nonneg (G / 255)) as Ht0.
  assert (Hle : tone (G / 255) <= G / 255) by (apply tone_le_id; lra).
  split; [lra |]. split; [lra |]. split; [lra |].
  intros HGs.
  assert (Hlt : tone (G / 255) < G / 255) by (apply tone_lt_id; lra).
  lra.
Qed.

Lemma gamma_never_lightens_witness :
  exists G C : R,
    gray_of (of_Z 10) (of_Z 200) (of_Z 30) = Num G
    /\ correctedGray_of (Num G) = Num C
    /\ 0 <= C /\ C <= G /\ G <= 255
    /\ (0 < G < 255 -> C < G).
Proof.
  apply (gamma_never_lightens 10 200 30); unfold byte; lia.
Defined.

(** X2. The output colour depends on the luminance only: two pixels of
    well-formed bitmaps with the same [299 r + 587 g + 114 b] get the same
    R, G and B bytes. *)
Theorem same_luminance_same_colour (img img' : ImageData) (k k' : nat)
    (r g b a r' g' b' a' : Z) :
  well_formed img -> well_formed img' ->
  pixel_at (data img) k = Some (r, g, b, a) ->
  pixel_at (data img') k' = Some (r', g', b', a') ->
  (299 * r + 587 * g + 114 * b = 299 * r' + 587 * g' + 114 * b')%Z ->
  exists ro go bo : Z,
    pixel_at (data (applyDuotoneFilter img)) k = Some (ro, go, bo, a)
    /\ pixel_at (data (applyDuotoneFilter img')) k' = Some (ro, go, bo, a').
Proof.
  intros [_ Hbytes] [_ Hbytes'] Hpx Hpx' Hluma.
  destruct (pixel_at_bytes _ _ _ _ _ _ Hbytes Hpx) as (Hr & Hg & Hb & _).
  destruct (pixel_at_bytes _ _ _ _ _ _ Hbytes' Hpx') as (Hr' & Hg' & Hb' & _).
  destruct (pixelZ r g b) as [[ro go] bo] eqn:Hz.
  exists ro, go, bo. split.
  - apply (pixel_bytes img k r g b a); assumption.
  - apply (pixel_bytes img' k' r' g' b' a'); try assumption.
    rewrite <- Hz. unfold pixelZ, luma1000. rewrite Hluma. reflexivity.
Qed.

Lemma well_formed_same_luma : well_formed same_luma.
Proof.
  split; [reflexivity |]. repeat constructor; unfold byte; lia.
Defined.

Lemma same_luminance_same_colour_witness :
  exists ro go bo : Z,
    pixel_at (data (applyDuotoneFilter same_luma)) 0 = Some (ro, go, bo, 255%Z)
    /\ pixel_at (data (applyDuotoneFilter same_luma)) 1 = Some (ro, go, bo, 9%Z).
Proof.
  apply (same_luminance_same_colour same_luma same_luma 0 1 0 0 34 255 11 1 0 9).
  - exact well_formed_same_luma.
  - exact well_formed_same_luma.
  - reflexivity.
  - reflexivity.
  - reflexivity.
Defined.

(** X3. Pixels are independent: the pass on two buffers put end to end, the
    first a whole number of pixels long, is the pass on each, put end to
    end. *)
Theorem applyDuotoneFilter_app (w h w1 h1 w2 h2 n : nat) (d1 d2 : list Z) :
  length d1 = (4 * n)%nat ->
  data (applyDuotoneFilter (mkImageData w h (d1 ++ d2)))
  = data (applyDuotoneFilter (mkImageData w1 h1 d1))
    ++ data (applyDuotoneFilter (mkImageData w2 h2 d2)).
Proof.
  intros Hlen. cbn [applyDuotoneFilter data].
  apply (loop_app4 n). exact Hlen.
Qed.

Lemma applyDuotoneFilter_app_witness :
  data (applyDuotoneFilter
          (mkImageData 2 1 ([0; 0; 0; 255] ++ [255; 255; 255; 255])%Z))
  = data (applyDuotoneFilter black1) ++ data (applyDuotoneFilter white1).
Proof.
  apply (applyDuotoneFilter_app 2 1 1 1 1 1 1). reflexivity.
Defined.

(** X4. A buffer that ends in a partial pixel of one or two bytes: a read
    past the end makes the gray NaN, and those bytes are stored as 0; the
    whole pixels before them are mapped as usual. *)
Theorem partial_pixel_zeroed (w h n : nat) (full tail : list Z) :
  length full = (4 * n)%nat ->
  length tail = 1%nat \/ length tail = 2%nat ->
  data (applyDuotoneFilter (mkImageData w h (full ++ tail)))
  = data (applyDuotoneFilter (mkImageData w h full))
    ++ repeat 0%Z (length tail).
Proof.
  intros Hfull Htail. cbn [applyDuotoneFilter data].
  rewrite (loop_app4 n) by exact Hfull.
  rewrite (loop_short tail) by exact Htail. reflexivity.
Qed.

Lemma partial_pixel_zeroed_witness :
  data (applyDuotoneFilter (mkImageData 1 1 ([0; 0; 0; 255] ++ [200; 100])%Z))
  = data (applyDuotoneFilter (mkImageData 1 1 [0; 0; 0; 255]%Z))
    ++ repeat 0%Z 2.
Proof.
  apply (partial_pixel_zeroed 1 1 1 [0; 0; 0; 255]%Z [200; 100]%Z).
  - reflexivity.
  - right. reflexivity.
Defined.

(** X5. The output bytes can be told with integers alone.  With
    [G = 299 r + 587 g + 114 b], the byte [n] stored for a channel with
    endpoints [dark] and [light] satisfies
    [(2 (n - dark) - 1)^9 * 255000^10 <= (2 (light - dark))^9 * G^10
     <= (2 (n - dark) + 1)^9 * 255000^10]. *)
Theorem output_integer_test (img : ImageData) (k : nat) (r g b a : Z) :
  well_formed img ->
  pixel_at (data img) k = Some (r, g, b, a) ->
  exists ro go bo : Z,
    pixel_at (data (applyDuotoneFilter img)) k = Some (ro, go, bo, a)
    /\ let G := (299 * r + 587 * g + 114 * b)%Z in
       ((2 * (ro - 27) - 1) ^ 9 * 255000 ^ 10 <= (2 * (247 - 27)) ^ 9 * G ^ 10
        <= (2 * (ro - 27) + 1) ^ 9 * 255000 ^ 10)%Z
       /\ ((2 * (go - 96) - 1) ^ 9 * 255000 ^ 10 <= (2 * (132 - 96)) ^ 9 * G ^ 10
           <= (2 * (go - 96) + 1) ^ 9 * 255000 ^ 10)%Z
       /\ ((2 * (bo - 47) - 1) ^ 9 * 255000 ^ 10 <= (2 * (197 - 47)) ^ 9 * G ^ 10
           <= (2 * (bo - 47) + 1) ^ 9 * 255000 ^ 10)%Z.
Proof.
  intros [_ Hbytes] Hpx.
  destruct (pixel_at_bytes _ _ _ _ _ _ Hbytes Hpx) as (Hr & Hg & Hb & _).
  pose proof (luma1000_range r g b Hr Hg Hb) as HG.
  destruct (stored_real r g b Hr Hg Hb) as (H0 & H1 & H2).
  exists (stored 0 (of_Z r) (of_Z g) (of_Z b)),
    (stored 1 (of_Z r) (of_Z g) (of_Z b)), (stored 2 (of_Z r) (of_Z g) (of_Z b)).
  split; [apply pixel_at_applyDuotoneFilter; exact Hpx |].
  cbv zeta. fold (luma1000 r g b).
  rewrite H0, H1, H2.
  split; [| split].
  - apply (channel_integer 27 247 (luma1000 r g b)); lia.
  - apply (channel_integer 96 132 (luma1000 r g b)); lia.
  - apply (channel_integer 47 197 (luma1000 r g b)); lia.
Qed.

Lemma output_integer_test_witness :
  exists ro go bo : Z,
    pixel_at (data (applyDuotoneFilter two_by_one)) 0 = Some (ro, go, bo, 255%Z)
    /\ let G := (299 * 10 + 587 * 200 + 114 * 30)%Z in
       ((2 * (ro - 27) - 1) ^ 9 * 255000 ^ 10 <= (2 * (247 - 27)) ^ 9 * G ^ 10
        <= (2 * (ro - 27) + 1) ^ 9 * 255000 ^ 10)%Z
       /\ ((2 * (go - 96) - 1) ^ 9 * 255000 ^ 10 <= (2 * (132 - 96)) ^ 9 * G ^ 10
           <= (2 * (go - 96) + 1) ^ 9 * 255000 ^ 10)%Z
       /\ ((2 * (bo - 47) - 1) ^ 9 * 255000 ^ 10 <= (2 * (197 - 47)) ^ 9 * G ^ 10
           <= (2 * (bo - 47) + 1) ^ 9 * 255000 ^ 10)%Z.
Proof.
  apply (output_integer_test two_by_one 0 10 200 30 255).
  - exact well_formed_two_by_one.
  - reflexivity.
Defined.

End LoopExtras.

(** * The letterbox fit *)

Section Letterbox.
Local Open Scope R_scope.

Variables imgWidth imgHeight canvasWidth canvasHeight : R.
Hypothesis imgWidth_pos : 0 < imgWidth.
Hypothesis imgHeight_pos : 0 < imgHeight.
Hypothesis canvasWidth_pos : 0 < canvasWidth.
Hypothesis canvasHeight_pos : 0 < canvasHeight.

Lemma aspectRatio_pos : 0 < imgWidth / imgHeight.
Proof. apply Rdiv_lt_0_compat; assumption. Qed.

(** The two cases of the fit, in closed form. *)
Lemma letterbox_cases :
  (canvasHeight < canvasWidth / (imgWidth / imgHeight)
   /\ letterbox imgWidth imgHeight canvasWidth canvasHeight
      = Draw.mk ((canvasWidth - canvasHeight * (imgWidth / imgHeight)) / 2)
                ((canvasHeight - canvasHeight) / 2)
                (canvasHeight * (imgWidth / imgHeight)) canvasHeight)
  \/ (canvasWidth / (imgWidth / imgHeight) <= canvasHeight
      /\ letterbox imgWidth imgHeight canvasWidth canvasHeight
         = Draw.mk ((canvasWidth - canvasWidth) / 2)
                   ((canvasHeight - canvasWidth / (imgWidth / imgHeight)) / 2)
                   canvasWidth (canvasWidth / (imgWidth / imgHeight))).
Proof.
  unfold letterbox. cbv zeta.
  destruct (Rlt_dec canvasHeight (canvasWidth / (imgWidth / imgHeight)))
    as [H | H].
  - left. split; [exact H | reflexivity].
  - right. split; [lra | reflexivity].
Qed.

Lemma div_aspect_mul :
  canvasWidth / (imgWidth / imgHeight) * (imgWidth / imgHeight) = canvasWidth.
Proof. field. split; lra. Qed.

End Letterbox.

Section LetterboxExtras.
Local Open Scope R_scope.

(** X6. The rectangle in which the picture is drawn lies inside the canvas
    and is not empty (for positive picture and canvas sizes). *)
Theorem letterbox_inside (imgWidth imgHeight canvasWidth canvasHeight : R) :
  0 < imgWidth -> 0 < imgHeight -> 0 < canvasWidth -> 0 < canvasHeight ->
  let rect := letterbox imgWidth imgHeight canvasWidth canvasHeight in
  0 <= Draw.x rect /\ 0 <= Draw.y rect
  /\ 0 < Draw.drawWidth rect /\ 0 < Draw.drawHeight rect
  /\ Draw.x rect + Draw.drawWidth rect <= canvasWidth
  /\ Draw.y rect + Draw.drawHeight rect <= canvasHeight.
Proof.
  intros Hiw Hih Hcw Hch rect.
  pose proof (aspectRatio_pos imgWidth imgHeight Hiw Hih) as Ha.
  pose proof (div_aspect_mul imgWidth imgHeight canvasWidth Hiw Hih) as Hmul.
  assert (Hd : 0 < canvasWidth / (imgWidth / imgHeight))
    by (apply Rdiv_lt_0_compat; assumption).
  destruct (letterbox_cases imgWidth imgHeight canvasWidth canvasHeight)
    as [[Hc Heq] | [Hc Heq]]; unfold rect; rewrite Heq; cbn.
  - assert (canvasHeight * (imgWidth / imgHeight) < canvasWidth) by nra.
    assert (0 < canvasHeight * (imgWidth / imgHeight))
      by (apply Rmult_lt_0_compat; assumption).
    repeat split; lra.
  - repeat split; lra.
Qed.

Lemma letterbox_inside_witness :
  let rect := letterbox 2000 1000 1024 1024 in
  0 <= Draw.x rect /\ 0 <= Draw.y rect
  /\ 0 < Draw.drawWidth rect /\ 0 < Draw.drawHeight rect
  /\ Draw.x rect + Draw.drawWidth rect <= 1024
  /\ Draw.y rect + Draw.drawHeight rect <= 1024.
Proof.
  apply (letterbox_inside 2000 1000 1024 1024); lra.
Defined.

End LetterboxExtras.

(** * The letterbox fit with rounding *)

Section RoundedFit.
Local Open Scope R_scope.

Variable rnd : R -> R.
Variable u : R.
Hypothesis u_small : 0 <= u <= 1 / 100.
Hypothesis rnd_ok : rounds_within u rnd.

Lemma rnd_0 : rnd 0 = 0.
Proof.
  pose proof (rnd_ok 0) as H. rewrite Rabs_R0, Rmult_0_r, Rminus_0_r in H.
  pose proof (Rabs_pos (rnd 0)) as Hp.
  destruct (Req_dec (rnd 0) 0) as [E | E]; [exact E |].
  apply Rabs_pos_lt in E. lra.
Qed.

Lemma rnd_bounds (x : R) : 0 <= x -> x * (1 - u) <= rnd x <= x * (1 + u).
Proof.
  intros Hx. pose proof (rnd_ok x) as H.
  rewrite (Rabs_right x) in H by lra.
  unfold Rabs in H. destruct (Rcase_abs (rnd x - x)); lra.
Qed.

Lemma rnd_pos (x : R) : 0 < x -> 0 < rnd x.
Proof.
  intros Hx. pose proof (rnd_bounds x ltac:(lra)) as [H _].
  assert (0 < x * (1 - u)) by (apply Rmult_lt_0_compat; lra). lra.
Qed.

(** A margin on the side that the picture spans is exactly zero. *)
Lemma margin_0 (c : R) : rnd (rnd (c - c) / 2) = 0.
Proof.
  rewrite Rminus_diag, rnd_0.
  replace (0 / 2) with 0 by lra. apply rnd_0.
Qed.

Variables imgWidth imgHeight canvasWidth canvasHeight : R.
Hypothesis imgWidth_pos : 0 < imgWidth.
Hypothesis imgHeight_pos : 0 < imgHeight.
Hypothesis canvasWidth_pos : 0 < canvasWidth.
Hypothesis canvasHeight_pos : 0 < canvasHeight.

(** The two cases of the rounded fit. *)
Lemma letterbox_fl_cases :
  let a := rnd (imgWidth / imgHeight) in
  let h := rnd (canvasWidth / a) in
  (canvasHeight < h
   /\ letterbox_fl rnd imgWidth imgHeight canvasWidth canvasHeight
      = Draw.mk (rnd (rnd (canvasWidth - rnd (canvasHeight * a)) / 2)) 0
                (rnd (canvasHeight * a)) canvasHeight)
  \/ (h <= canvasHeight
      /\ letterbox_fl rnd imgWidth imgHeight canvasWidth canvasHeight
         = Draw.mk 0 (rnd (rnd (canvasHeight - h) / 2)) canvasWidth h).
Proof.
  intros a h. unfold letterbox_fl. cbv zeta. fold a. fold h.
  destruct (Rlt_dec canvasHeight h) as [H | H].
  - left. split; [exact H |]. rewrite margin_0. reflexivity.
  - right. split; [lra |]. rewrite margin_0. reflexivity.
Qed.

(** The rounded aspect ratio, and the rounded height at full width. *)
Lemma aspect_bounds :
  let a := rnd (imgWidth / imgHeight) in
  0 < a
  /\ imgWidth * (1 - u) <= a * imgHeight <= imgWidth * (1 + u).
Proof.
  intros a.
  assert (Hr : 0 < imgWidth / imgHeight) by (apply Rdiv_lt_0_compat; assumption).
  split; [apply rnd_pos; exact Hr |].
  pose proof (rnd_bounds (imgWidth / imgHeight) ltac:(lra)) as [Hlo Hhi].
  fold a in Hlo, Hhi.
  assert (Hi : imgWidth / imgHeight * imgHeight = imgWidth) by (field; lra).
  split.
  - apply (Rmult_le_compat_r imgHeight) in Hlo; [| lra]. nra.
  - apply (Rmult_le_compat_r imgHeight) in Hhi; [| lra]. nra.
Qed.

Lemma full_width_height_bounds :
  let a := rnd (imgWidth / imgHeight) in
  let h := rnd (canvasWidth / a) in
  0 < h
  /\ canvasWidth * imgHeight * (1 - 3 * u) <= h * imgWidth
     <= canvasWidth * imgHeight * (1 + 3 * u)
  /\ h * imgWidth * (1 - 3 * u) <= canvasWidth * imgHeight
     <= h * imgWidth * (1 + 3 * u).
Proof.
  intros a h.
  destruct aspect_bounds as [Ha [Alo Ahi]]. fold a in Ha, Alo, Ahi.
  set (q := canvasWidth / a).
  assert (Hq : 0 < q) by (apply Rdiv_lt_0_compat; assumption).
  assert (Hqa : q * a = canvasWidth) by (unfold q; field; lra).
  pose proof (rnd_bounds q ltac:(lra)) as [Hlo Hhi].
  change (rnd q) with h in Hlo, Hhi.
  assert (Hh : 0 < h) by (unfold h; apply rnd_pos; exact Hq).
  split; [exact Hh |].
  clearbody h q a.
  set (P := q * imgWidth).
  assert (HP : 0 < P) by (apply Rmult_lt_0_compat; assumption).
  assert (HV : canvasWidth * imgHeight = q * (a * imgHeight))
    by (rewrite <- Hqa; ring).
  assert (HV1 : P * (1 - u) <= canvasWidth * imgHeight).
  { rewrite HV. unfold P.
    apply (Rmult_le_compat_l q) in Alo; [| lra]. lra. }
  assert (HV2 : canvasWidth * imgHeight <= P * (1 + u)).
  { rewrite HV. unfold P.
    apply (Rmult_le_compat_l q) in Ahi; [| lra]. lra. }
  assert (HD1 : P * (1 - u) <= h * imgWidth).
  { apply (Rmult_le_compat_r imgWidth) in Hlo; [| lra]. unfold P. lra. }
  assert (HD2 : h * imgWidth <= P * (1 + u)).
  { apply (Rmult_le_compat_r imgWidth) in Hhi; [| lra]. unfold P. lra. }
  clearbody P.
  assert (HuP : 0 <= u * P) by (apply Rmult_le_pos; lra).
  assert (HuuP : 0 <= u * (u * P)) by (apply Rmult_le_pos; lra).
  assert (Hu3 : u * (u * P) <= (1 / 100) * (u * P))
    by (apply Rmult_le_compat_r; lra).
  repeat split; nra.
Qed.

Lemma full_height_width_bounds :
  let a := rnd (imgWidth / imgHeight) in
  let w := rnd (canvasHeight * a) in
  0 < w
  /\ canvasHeight * imgWidth * (1 - 3 * u) <= w * imgHeight
     <= canvasHeight * imgWidth * (1 + 3 * u).
Proof.
  intros a w.
  destruct aspect_bounds as [Ha [Alo Ahi]]. fold a in Ha, Alo, Ahi.
  set (p := canvasHeight * a).
  assert (Hp : 0 < p) by (apply Rmult_lt_0_compat; assumption).
  pose proof (rnd_bounds p ltac:(lra)) as [Hlo Hhi].
  change (rnd p) with w in Hlo, Hhi.
  assert (Hw : 0 < w) by (unfold w; apply rnd_pos; exact Hp).
  split; [exact Hw |].
  assert (HpA : p * imgHeight = canvasHeight * (a * imgHeight))
    by (unfold p; ring).
  clearbody w p a.
  set (P := canvasHeight * imgWidth).
  assert (HP : 0 < P) by (apply Rmult_lt_0_compat; assumption).
  assert (HA1 : P * (1 - u) <= p * imgHeight).
  { rewrite HpA. unfold P.
    apply (Rmult_le_compat_l canvasHeight) in Alo; [| lra]. lra. }
  assert (HA2 : p * imgHeight <= P * (1 + u)).
  { rewrite HpA. unfold P.
    apply (Rmult_le_compat_l canvasHeight) in Ahi; [| lra]. lra. }
  assert (HW1 : p * imgHeight * (1 - u) <= w * imgHeight).
  { apply (Rmult_le_compat_r imgHeight) in Hlo; [| lra]. lra. }
  assert (HW2 : w * imgHeight <= p * imgHeight * (1 + u)).
  { apply (Rmult_le_compat_r imgHeight) in Hhi; [| lra]. lra. }
  clearbody P.
  assert (HuP : 0 <= u * P) by (apply Rmult_le_pos; lra).
  assert (Hu3 : u * (u * P) <= (1 / 100) * (u * P))
    by (apply Rmult_le_compat_r; lra).
  assert (HuuP : 0 <= u * (u * P)) by (apply Rmult_le_pos; lra).
  split; nra.
Qed.

End RoundedFit.

Section RoundedFitExtras.
Local Open Scope R_scope.

Lemma Rabs_le_between (x e : R) : - e <= x <= e -> Rabs x <= e.
Proof. intros H. apply Rabs_le. exact H. Qed.

(** From a relative bound on a product to the same bound on the quotient. *)
Lemma Rabs_div_bound (x y c e : R) :
  0 < c -> Rabs (x * c - y) <= e * y -> Rabs (x - y / c) <= e * (y / c).
Proof.
  intros Hc H.
  replace (x - y / c) with ((x * c - y) / c) by (field; lra).
  unfold Rdiv at 1. rewrite Rabs_mult, (Rabs_right (/ c)).
  - replace (e * (y / c)) with (e * y * / c) by (field; lra).
    apply Rmult_le_compat_r; [| exact H].
    left. apply Rinv_0_lt_compat, Hc.
  - left. apply Rinv_0_lt_compat, Hc.
Qed.

Lemma rounds_within_id (u : R) : 0 <= u -> rounds_within u (fun x => x).
Proof.
  intros Hu x. rewrite Rminus_diag, Rabs_R0.
  apply Rmult_le_pos; [exact Hu | apply Rabs_pos].
Qed.

(** With no rounding the rounded fit is the exact one. *)
Lemma letterbox_fl_exact (imgWidth imgHeight canvasWidth canvasHeight : R) :
  letterbox_fl (fun x => x) imgWidth imgHeight canvasWidth canvasHeight
  = letterbox imgWidth imgHeight canvasWidth canvasHeight.
Proof. reflexivity. Qed.

Lemma unit_roundoff_small : 0 <= unit_roundoff <= 1 / 100.
Proof. unfold unit_roundoff. lra. Qed.

(** X7. The fit keeps the picture's aspect ratio up to rounding: with every
    operation rounded with relative error at most [u <= 1/100],
    [drawWidth * img.height] and [drawHeight * img.width] differ by at most
    [3 u] of the latter, and so do [drawWidth / drawHeight] and
    [img.width / img.height]. *)
Theorem letterbox_aspect (rnd : R -> R) (u : R)
    (imgWidth imgHeight canvasWidth canvasHeight : R) :
  0 <= u <= 1 / 100 -> rounds_within u rnd ->
  0 < imgWidth -> 0 < imgHeight -> 0 < canvasWidth -> 0 < canvasHeight ->
  let rect := letterbox_fl rnd imgWidth imgHeight canvasWidth canvasHeight in
  Rabs (Draw.drawWidth rect * imgHeight - Draw.drawHeight rect * imgWidth)
  <= 3 * u * (Draw.drawHeight rect * imgWidth)
  /\ Rabs (Draw.drawWidth rect / Draw.drawHeight rect - imgWidth / imgHeight)
     <= 3 * u * (imgWidth / imgHeight).
Proof.
  intros Hu Hrnd Hiw Hih Hcw Hch rect.
  pose proof (full_width_height_bounds rnd u Hu Hrnd _ _ canvasWidth Hiw Hih Hcw)
    as (Hh & _ & Hh1 & Hh2).
  pose proof (full_height_width_bounds rnd u Hu Hrnd _ _ canvasHeight Hiw Hih Hch)
    as (Hw & Hw1 & Hw2).
  cbv zeta in Hh, Hh1, Hh2, Hw, Hw1, Hw2.
  assert (Hgen : forall dw dh : R, 0 < dh ->
            Rabs (dw * imgHeight - dh * imgWidth) <= 3 * u * (dh * imgWidth) ->
            Rabs (dw / dh - imgWidth / imgHeight) <= 3 * u * (imgWidth / imgHeight)).
  { intros dw dh Hdh H.
    replace (dw / dh - imgWidth / imgHeight)
      with ((dw * imgHeight - dh * imgWidth) / (dh * imgHeight))
      by (field; lra).
    assert (HK : 0 < / (dh * imgHeight))
      by (apply Rinv_0_lt_compat, Rmult_lt_0_compat; assumption).
    unfold Rdiv at 1. rewrite Rabs_mult, (Rabs_right (/ (dh * imgHeight))) by lra.
    replace (3 * u * (imgWidth / imgHeight))
      with (3 * u * (dh * imgWidth) * / (dh * imgHeight)) by (field; lra).
    apply Rmult_le_compat_r; [lra | exact H]. }
  destruct (letterbox_fl_cases rnd u Hrnd
              imgWidth imgHeight canvasWidth canvasHeight) as [[Hc Heq] | [Hc Heq]];
    unfold rect; rewrite Heq; cbn [Draw.drawWidth Draw.drawHeight].
  - assert (H : Rabs (rnd (canvasHeight * rnd (imgWidth / imgHeight)) * imgHeight
                      - canvasHeight * imgWidth)
                <= 3 * u * (canvasHeight * imgWidth))
      by (apply Rabs_le_between; lra).
    split; [exact H | apply Hgen; assumption].
  - assert (H : Rabs (canvasWidth * imgHeight
                      - rnd (canvasWidth / rnd (imgWidth / imgHeight)) * imgWidth)
                <= 3 * u * (rnd (canvasWidth / rnd (imgWidth / imgHeight))
                            * imgWidth))
      by (apply Rabs_le_between; lra).
    split; [exact H | apply Hgen; assumption].
Qed.

Lemma letterbox_aspect_witness :
  let rect := letterbox_fl (fun x => x) 600 800 1024 1024 in
  Rabs (Draw.drawWidth rect * 800 - Draw.drawHeight rect * 600)
  <= 3 * unit_roundoff * (Draw.drawHeight rect * 600)
  /\ Rabs (Draw.drawWidth rect / Draw.drawHeight rect - 600 / 800)
     <= 3 * unit_roundoff * (600 / 800).
Proof.
  apply (letterbox_aspect (fun x => x) unit_roundoff 600 800 1024 1024).
  - exact unit_roundoff_small.
  - apply rounds_within_id, unit_roundoff_small.
  - lra.
  - lra.
  - lra.
  - lra.
Defined.

(** X8. The fit is the largest one, flush with the canvas.  Either the
    picture spans the whole width ([x = 0]) and its height is
    [canvas.width * img.height / img.width] up to a relative rounding error
    of [3 u], or it spans the whole height ([y = 0]) and its width is
    [canvas.height * img.width / img.height] up to [3 u].  A picture wider
    than the canvas by more than the rounding margin spans the width, a
    narrower one spans the height. *)
Theorem letterbox_largest (rnd : R -> R) (u : R)
    (imgWidth imgHeight canvasWidth canvasHeight : R) :
  0 <= u <= 1 / 100 -> rounds_within u rnd ->
  0 < imgWidth -> 0 < imgHeight -> 0 < canvasWidth -> 0 < canvasHeight ->
  let rect := letterbox_fl rnd imgWidth imgHeight canvasWidth canvasHeight in
  ((Draw.drawWidth rect = canvasWidth /\ Draw.x rect = 0
    /\ Draw.drawHeight rect <= canvasHeight
    /\ Rabs (Draw.drawHeight rect - canvasWidth * imgHeight / imgWidth)
       <= 3 * u * (canvasWidth * imgHeight / imgWidth))
   \/ (Draw.drawHeight rect = canvasHeight /\ Draw.y rect = 0
       /\ Rabs (Draw.drawWidth rect - canvasHeight * imgWidth / imgHeight)
          <= 3 * u * (canvasHeight * imgWidth / imgHeight)))
  /\ (canvasWidth * imgHeight * (1 + 3 * u) <= canvasHeight * imgWidth ->
      Draw.drawWidth rect = canvasWidth /\ Draw.x rect = 0)
  /\ (canvasHeight * imgWidth < canvasWidth * imgHeight * (1 - 3 * u) ->
      Draw.drawHeight rect = canvasHeight /\ Draw.y rect = 0).
Proof.
  intros Hu Hrnd Hiw Hih Hcw Hch rect.
  pose proof (full_width_height_bounds rnd u Hu Hrnd _ _ canvasWidth Hiw Hih Hcw)
    as (Hh & Hh1 & Hh2 & _).
  pose proof (full_height_width_bounds rnd u Hu Hrnd _ _ canvasHeight Hiw Hih Hch)
    as (Hw & Hw1 & Hw2).
  cbv zeta in Hh, Hh1, Hh2, Hw, Hw1, Hw2.
  destruct (letterbox_fl_cases rnd u Hrnd
              imgWidth imgHeight canvasWidth canvasHeight) as [[Hc Heq] | [Hc Heq]];
    unfold rect; rewrite Heq;
    cbn [Draw.drawWidth Draw.drawHeight Draw.x Draw.y];
    cbv zeta in Hc.
  - split; [right | split].
    + split; [reflexivity |]. split; [reflexivity |].
      apply Rabs_div_bound; [exact Hih |].
      apply Rabs_le_between. lra.
    + intros Hwide.
      apply (Rmult_lt_compat_r imgWidth) in Hc; [| exact Hiw]. lra.
    + intros _. split; reflexivity.
  - split; [left | split].
    + split; [reflexivity |]. split; [reflexivity |]. split; [exact Hc |].
      apply Rabs_div_bound; [exact Hiw |].
      apply Rabs_le_between. lra.
    + intros _. split; reflexivity.
    + intros Hnarrow.
      apply (Rmult_le_compat_r imgWidth) in Hc; [| lra]. lra.
Qed.

Lemma letterbox_largest_witness :
  let rect := letterbox_fl (fun x => x) 2000 1000 1024 1024 in
  ((Draw.drawWidth rect = 1024 /\ Draw.x rect = 0
    /\ Draw.drawHeight rect <= 1024
    /\ Rabs (Draw.drawHeight rect - 1024 * 1000 / 2000)
       <= 3 * unit_roundoff * (1024 * 1000 / 2000))
   \/ (Draw.drawHeight rect = 1024 /\ Draw.y rect = 0
       /\ Rabs (Draw.drawWidth rect - 1024 * 2000 / 1000)
          <= 3 * unit_roundoff * (1024 * 2000 / 1000)))
  /\ (1024 * 1000 * (1 + 3 * unit_roundoff) <= 1024 * 2000 ->
      Draw.drawWidth rect = 1024 /\ Draw.x rect = 0)
  /\ (1024 * 2000 < 1024 * 1000 * (1 - 3 * unit_roundoff) ->
      Draw.drawHeight rect = 1024 /\ Draw.y rect = 0).
Proof.
  apply (letterbox_largest (fun x => x) unit_roundoff 2000 1000 1024 1024).
  - exact unit_roundoff_small.
  - apply rounds_within_id, unit_roundoff_small.
  - lra.
  - lra.
  - lra.
  - lra.
Defined.

End RoundedFitExtras.

(** * The state of the component *)

Section AppState.
Variable toDataURL : ImageData -> string.

Lemma handleFileChange_cases (files : option (list App.File)) (st : App.State) :
  App.handleFileChange files st = (st, None)
  \/ (exists file rest, files = Some (file :: rest)
        /\ String.prefix "image/" (App.type file) = true
        /\ App.handleFileChange files st = (st, Some file))
  \/ (exists file rest, files = Some (file :: rest)
        /\ String.prefix "image/" (App.type file) = false
        /\ App.handleFileChange files st
           = (App.setError
                (Some "Please upload an image file (e.g., JPG, PNG).") st, None)).
Proof.
  destruct files as [[| file rest] |]; [left; reflexivity | | left; reflexivity].
  unfold App.handleFileChange.
  destruct (String.prefix "image/" (App.type file)) eqn:Hp; cbn.
  - right. left. exists file, rest. auto.
  - right. right. exists file, rest. auto.
Qed.

(** No handler but the drag handlers and the drop handler touches
    [isDragging]. *)
Lemma step_isDragging (st : App.State) (e : App.event) :
  App.sets_dragging e = false ->
  App.isDragging (App.step toDataURL st e) = App.isDragging st.
Proof.
  destruct e as [files | result | | c | | isEntering | files |];
    cbn; intros He; try discriminate He; try reflexivity.
  - destruct (handleFileChange_cases files st)
      as [H | [(f & fs & _ & _ & H) | (f & fs & _ & _ & H)]];
      rewrite H; reflexivity.
  - unfold App.originalImage_effect.
    destruct (negb (App.truthy (App.originalImage st))); reflexivity.
  - destruct c; reflexivity.
Qed.

(** Every handler keeps: a processed picture is there only when nothing is
    loading. *)
Lemma step_processed_not_loading (st : App.State) (e : App.event) :
  App.processedImageURL st = None \/ App.isLoading st = false ->
  App.processedImageURL (App.step toDataURL st e) = None
  \/ App.isLoading (App.step toDataURL st e) = false.
Proof.
  intros Hinv.
  destruct e as [files | result | | c | | isEntering | files |]; cbn.
  - destruct (handleFileChange_cases files st)
      as [H | [(f & fs & _ & _ & H) | (f & fs & _ & _ & H)]];
      rewrite H; exact Hinv.
  - exact Hinv.
  - unfold App.originalImage_effect.
    destruct (negb (App.truthy (App.originalImage st)));
      [exact Hinv | left; reflexivity].
  - destruct c; cbn; [exact Hinv | exact Hinv | right; reflexivity].
  - right. reflexivity.
  - exact Hinv.
  - unfold App.handleDrop.
    destruct (handleFileChange_cases files (App.setIsDragging false st))
      as [H | [(f & fs & _ & _ & H) | (f & fs & _ & _ & H)]];
      rewrite H; exact Hinv.
  - right. reflexivity.
Qed.

(** X9. Whatever the sequence of events from the initial state, a processed
    picture is never there while the loading flag is on. *)
Theorem processed_never_while_loading (events : list App.event) :
  let st := App.run toDataURL App.initial events in
  App.processedImageURL st = None \/ App.isLoading st = false.
Proof.
  cbv zeta.
  assert (Hgen : forall st,
            App.processedImageURL st = None \/ App.isLoading st = false ->
            App.processedImageURL (App.run toDataURL st events) = None
            \/ App.isLoading (App.run toDataURL st events) = false).
  { induction events as [| e events IH]; intros st Hinv.
    - exact Hinv.
    - apply IH, step_processed_not_loading, Hinv. }
  apply Hgen. left. reflexivity.
Qed.

(** X10. A run of events without drag and drop events leaves the dragging
    flag as it was. *)
Theorem isDragging_frame (st : App.State) (events : list App.event) :
  forallb (fun e => negb (App.sets_dragging e)) events = true ->
  App.isDragging (App.run toDataURL st events) = App.isDragging st.
Proof.
  revert st. induction events as [| e events IH]; intros st Hall.
  - reflexivity.
  - cbn in Hall. apply andb_prop in Hall as [He Hrest].
    apply negb_true_iff in He.
    change (App.run toDataURL st (e :: events))
      with (App.run toDataURL (App.step toDataURL st e) events).
    rewrite IH by exact Hrest.
    apply step_isDragging, He.
Qed.

(** X11. A file that is not of an image type is refused: the error message is
    set, no file is read and, from a state without a picture, the effect that
    follows starts no loading.  Null and empty file lists change nothing. *)
Theorem non_image_refused (st : App.State) (file : App.File)
    (rest : list App.File) :
  String.prefix "image/" (App.type file) = false ->
  App.truthy (App.originalImage st) = false ->
  App.handleFileChange (Some (file :: rest)) st
  = (App.setError (Some "Please upload an image file (e.g., JPG, PNG).") st,
     None)
  /\ App.run toDataURL st
       [App.FileChange (Some (file :: rest)); App.OriginalImageEffect]
     = App.setError (Some "Please upload an image file (e.g., JPG, PNG).") st
  /\ App.handleFileChange None st = (st, None)
  /\ App.handleFileChange (Some []) st = (st, None).
Proof.
  intros Hp Horig.
  assert (H1 : App.handleFileChange (Some (file :: rest)) st
               = (App.setError
                    (Some "Please upload an image file (e.g., JPG, PNG).") st,
                  None)).
  { unfold App.handleFileChange. rewrite Hp. reflexivity. }
  split; [exact H1 |]. split; [| split; reflexivity].
  unfold App.run. cbn [fold_left App.step]. rewrite H1. cbn [fst].
  unfold App.originalImage_effect.
  cbn [App.setError App.originalImage]. rewrite Horig. reflexivity.
Qed.

(** X12. When the picture has loaded but the canvas or its 2d context is
    missing, the loading flag that the effect switched on stays on and no
    processed picture is set; only a missing context sets an error. *)
Theorem missing_canvas_keeps_loading (st : App.State) (c : App.canvas) :
  App.truthy (App.originalImage st) = true ->
  c = App.NoCanvas \/ c = App.NoContext ->
  let st' := App.run toDataURL st [App.OriginalImageEffect; App.ImgLoad c] in
  App.isLoading st' = true
  /\ App.processedImageURL st' = None
  /\ App.error st'
     = match c with
       | App.NoContext => Some "Could not get canvas context."
       | _ => None
       end.
Proof.
  intros Horig Hc st'. unfold st', App.run.
  cbn [fold_left App.step]. unfold App.originalImage_effect.
  rewrite Horig. cbn [negb].
  destruct Hc as [-> | ->]; repeat split.
Qed.

(** X13. An accepted upload, step by step: the file of an image type is
    handed to the reader without a change of state; then the reader's result,
    the effect and the loaded picture leave the data URL of the mapped canvas
    as the processed picture, with no error and the loading flag off. *)
Theorem upload_pipeline (st : App.State) (file : App.File)
    (rest : list App.File) (url : string) (imageData : ImageData) :
  String.prefix "image/" (App.type file) = true ->
  url <> "" ->
  App.handleFileChange (Some (file :: rest)) st = (st, Some file)
  /\ App.run toDataURL st
       [App.ReaderLoad (Some url); App.OriginalImageEffect;
        App.ImgLoad (App.Painted imageData)]
     = App.mkState (Some url)
         (Some (toDataURL (applyDuotoneFilter imageData)))
         false None (App.isDragging st).
Proof.
  intros Hp Hurl. split.
  - unfold App.handleFileChange. rewrite Hp. reflexivity.
  - unfold App.run. cbn [fold_left App.step].
    unfold App.reader_onload, App.originalImage_effect.
    cbn [App.setOriginalImage App.originalImage App.truthy].
    destruct (String.eqb_spec url "") as [Heq | _]; [contradiction |].
    reflexivity.
Qed.

End AppState.

Lemma isDragging_frame_witness :
  App.isDragging
    (App.run (fun _ => "data:image/png;base64,")
       (App.mkState None None false None true)
       [App.ReaderLoad (Some "data:image/jpeg;base64,"); App.OriginalImageEffect;
        App.ImgError; App.Reset])
  = true.
Proof.
  apply (isDragging_frame (fun _ => "data:image/png;base64,")
           (App.mkState None None false None true)).
  reflexivity.
Defined.

Lemma non_image_refused_witness :
  App.handleFileChange (Some [App.mkFile "text/plain"]) App.initial
  = (App.setError (Some "Please upload an image file (e.g., JPG, PNG).")
       App.initial, None)
  /\ App.run (fun _ => "data:image/png;base64,") App.initial
       [App.FileChange (Some [App.mkFile "text/plain"]); App.OriginalImageEffect]
     = App.setError (Some "Please upload an image file (e.g., JPG, PNG).")
         App.initial
  /\ App.handleFileChange None App.initial = (App.initial, None)
  /\ App.handleFileChange (Some []) App.initial = (App.initial, None).
Proof.
  apply (non_image_refused (fun _ => "data:image/png;base64,") App.initial
           (App.mkFile "text/plain") []).
  - reflexivity.
  - reflexivity.
Defined.

Lemma missing_canvas_keeps_loading_witness :
  let st' :=
    App.run (fun _ => "data:image/png;base64,")
      (App.mkState (Some "data:image/jpeg;base64,") None false None false)
      [App.OriginalImageEffect; App.ImgLoad App.NoContext] in
  App.isLoading st' = true
  /\ App.processedImageURL st' = None
  /\ App.error st' = Some "Could not get canvas context.".
Proof.
  apply (missing_canvas_keeps_loading (fun _ => "data:image/png;base64,")
           (App.mkState (Some "data:image/jpeg;base64,") None false None false)
           App.NoContext).
  - reflexivity.
  - right. reflexivity.
Defined.

Lemma upload_pipeline_witness :
  App.handleFileChange (Some [App.mkFile "image/png"]) App.initial
  = (App.initial, Some (App.mkFile "image/png"))
  /\ App.run (fun _ => "data:image/png;base64,") App.initial
       [App.ReaderLoad (Some "data:image/png;base64,AAAA");
        App.OriginalImageEffect; App.ImgLoad (App.Painted black1)]
     = App.mkState (Some "data:image/png;base64,AAAA")
         (Some "data:image/png;base64,") false None false.
Proof.
  apply (upload_pipeline (fun _ => "data:image/png;base64,") App.initial
           (App.mkFile "image/png") [] "data:image/png;base64,AAAA" black1).
  - reflexivity.
  - discriminate.
Defined.
